(** * Sorted merge of log sources: the blocking and the pipelined engine

    A shallow embedding of [src/solution/sync-sorted-merge.js] and
    [src/solution/async-sorted-merge.js], with the part of
    [src/lib/log-source.js] the engines rely on.

    - A log source is an object with [pop] / [popAsync]; the engines only see
      the sequence of results of successive calls, so a source is the list of
      the results still to come.
    - The sink ([printer]) is a recorder: every call the engine makes on a
      source or on the sink is appended to a trace of events, in program
      order.
    - [PriorityQueue] comes from the package [@js-sdsl/priority-queue], which
      is not part of the sources; it is an interface with its laws, and the
      engines are defined and verified over any implementation of it. *)

From Stdlib Require Import String ZArith List Bool Arith Lia Permutation Sorted.
Import ListNotations.

(** ** Values *)

(** [LogEntry]: [{date, msg}].  A [Date] is compared through its numeric
    value (milliseconds), an integer. *)
Record LogEntry := mkLogEntry { date : Z; msg : string }.

(** What [pop] returns and what a [popAsync] promise resolves to:
    [false] or a log entry ([boolean|LogEntry]). *)
Inductive popped :=
| PFalse
| PEntry (e : LogEntry).

(** How a call (or a promise) settles: with a value, or with an error. *)
Inductive settled :=
| Ret (v : popped)
| Raise.

(** A JavaScript number as far as the comparator needs it. *)
Inductive jsnum :=
| Num (z : Z)
| NaN.

(** [x === false] *)
Definition is_false (v : popped) : bool :=
  match v with PFalse => true | PEntry _ => false end.

(** [v.date]: a property read on [false] gives [undefined]. *)
Definition date_of (v : popped) : option Z :=
  match v with PFalse => None | PEntry e => Some (date e) end.

(** ** Sources *)

(** The results of the calls still to come: an entry, [false], or an error
    thrown.  Once the list is used up the source stays drained and answers
    [false], as [LogSource.pop] does once [this.drained] is set. *)
Definition Source := list settled.

Definition pop (s : Source) : settled * Source :=
  match s with
  | [] => (Ret PFalse, [])
  | r :: s' => (r, s')
  end.

Fixpoint update {A} (i : nat) (x : A) (l : list A) : list A :=
  match l, i with
  | [], _ => []
  | _ :: l', O => x :: l'
  | y :: l', S i' => y :: update i' x l'
  end.

(** [logSources[i].pop()] (and the call part of [logSources[i].popAsync()]):
    [None] when [logSources[i]] is [undefined]. *)
Definition pop_at (i : nat) (logSources : list Source)
  : option (settled * list Source) :=
  match nth_error logSources i with
  | None => None
  | Some s => let (r, s') := pop s in Some (r, update i s' logSources)
  end.

(** ** The log source of [src/lib/log-source.js] *)

Module LogSourceLib.

Record LogSource := mkLogSource { drained : bool; last : LogEntry }.

(** [getNextPseudoRandomEntry]: the random hours ([_.random(10)]), the
    random jitter ([_.random(1000 * 60)]) and the message are inputs. *)
Definition getNextPseudoRandomEntry (hours jitter : Z) (m : string)
           (s : LogSource) : LogEntry :=
  mkLogEntry (date (last s) + 1000 * 60 * 60 * hours + jitter) m.

(** [pop]; [now] is the clock read by [new Date()]. *)
Definition pop (now hours jitter : Z) (m : string) (s : LogSource)
  : popped * LogSource :=
  let last' := getNextPseudoRandomEntry hours jitter m s in
  let drained' := if (date last' >? now)%Z then true else drained s in
  (if drained' then PFalse else PEntry last', mkLogSource drained' last').

(** [popAsync]: the call updates the source at once; the promise answers
    from [this.drained] and [this.last] as they are when its delay is
    over. *)
Definition popAsync_call (now hours jitter : Z) (m : string) (s : LogSource)
  : LogSource :=
  let last' := getNextPseudoRandomEntry hours jitter m s in
  mkLogSource (if (date last' >? now)%Z then true else drained s) last'.

Definition popAsync_settle (s : LogSource) : popped :=
  if drained s then PFalse else PEntry (last s).

(** One pull: the clock, the random hours, the random jitter, the
    message. *)
Definition draw : Type := (Z * Z * Z * string)%type.

Definition mk_draw (now hours jitter : Z) (m : string) : draw :=
  (now, hours, jitter, m).

(** The results of successive [pop]s, one per draw.  When the last draw
    leaves the source drained, every later [pop] answers [false], which is
    what a used-up [Source] answers. *)
Fixpoint script (draws : list draw) (s : LogSource) : Source :=
  match draws with
  | [] => []
  | (now, hours, jitter, m) :: draws' =>
      let (v, s') := pop now hours jitter m s in
      Ret v :: script draws' s'
  end.

(** The constructor: not drained, and [last] dated [days] days before the
    clock ([_.random(40, 60)] days). *)
Definition make (now days : Z) (m : string) : LogSource :=
  mkLogSource false (mkLogEntry (now - 1000 * 60 * 60 * 24 * days) m).

(** The clock of a draw. *)
Definition clock (d : draw) : Z := let '(now, _, _, _) := d in now.

(** What lodash draws: [_.random(10)] is between 0 and 10,
    [_.random(1000 * 60)] between 0 and 60000. *)
Definition in_range (d : draw) : Prop :=
  let '(_, hours, jitter, _) := d in
  (0 <= hours <= 10)%Z /\ (0 <= jitter <= 60000)%Z.

(** The source after [popAsync] was called once per draw, whether or not the
    promises have answered. *)
Definition popAsync_draw (s : LogSource) (d : draw) : LogSource :=
  let '(now, hours, jitter, m) := d in popAsync_call now hours jitter m s.

Definition popAsync_calls (draws : list draw) (s : LogSource) : LogSource :=
  fold_left popAsync_draw draws s.

End LogSourceLib.

(** ** The [Map] of promises *)

(** A JavaScript [Map] from source index to promise: insertion ordered, one
    entry per key.  A promise is represented by the way it settles. *)
Module JsMap.

Definition t (V : Type) := list (nat * V).

Definition empty {V} : t V := [].

Fixpoint get {V} (k : nat) (m : t V) : option V :=
  match m with
  | [] => None
  | (k', v) :: m' => if k =? k' then Some v else get k m'
  end.

(** [set] keeps the position of an existing key and appends a new one. *)
Fixpoint set {V} (k : nat) (v : V) (m : t V) : t V :=
  match m with
  | [] => [(k, v)]
  | (k', v') :: m' =>
      if k =? k' then (k, v) :: m' else (k', v') :: set k v m'
  end.

Fixpoint delete {V} (k : nat) (m : t V) : t V :=
  match m with
  | [] => []
  | (k', v') :: m' =>
      if k =? k' then delete k m' else (k', v') :: delete k m'
  end.

Definition keys {V} (m : t V) : list nat := map fst m.

End JsMap.

(** ** The ordering structure *)

(** The comparator answers like the sign of [key a - key b] on the items of
    [l]. *)
Definition keyed_by {A} (key : A -> Z) (cmp : A -> A -> jsnum) (l : list A)
  : Prop :=
  forall a b, In a l -> In b l ->
    exists z, cmp a b = Num z /\ Z.sgn z = Z.sgn (key a - key b).

(** [new PriorityQueue(array, cmp)], [push], [pop], [length].  The package
    is not part of the sources, so the queue is a parameter of the engines:
    any type with these operations and laws.
    [pq_items] is the content of the queue and [pq_heap key q] says that the
    queue has only ever held items on which its comparator is [keyed_by key];
    then [pop] returns an item of least key.  Nothing is said about which of
    several least items comes first. *)
Class PriorityQueue (A : Type) := {
  pq : (A -> A -> jsnum) -> Type;
  pq_new : forall cmp, list A -> pq cmp;
  pq_push : forall cmp, A -> pq cmp -> pq cmp;
  pq_pop : forall cmp, pq cmp -> option (A * pq cmp);
  pq_length : forall cmp, pq cmp -> nat;
  pq_items : forall cmp, pq cmp -> list A;
  pq_heap : forall cmp, (A -> Z) -> pq cmp -> Prop;
  pq_new_items : forall cmp l, Permutation (pq_items cmp (pq_new cmp l)) l;
  pq_push_items : forall cmp x (q : pq cmp),
      Permutation (pq_items cmp (pq_push cmp x q)) (x :: pq_items cmp q);
  pq_length_items : forall cmp (q : pq cmp),
      pq_length cmp q = length (pq_items cmp q);
  pq_pop_none : forall cmp (q : pq cmp),
      pq_items cmp q = [] -> pq_pop cmp q = None;
  pq_pop_some : forall cmp (q : pq cmp),
      pq_items cmp q <> [] ->
      exists x q', pq_pop cmp q = Some (x, q') /\
                   Permutation (pq_items cmp q) (x :: pq_items cmp q');
  pq_new_heap : forall cmp key l,
      keyed_by key cmp l -> pq_heap cmp key (pq_new cmp l);
  pq_push_heap : forall cmp key x (q : pq cmp),
      pq_heap cmp key q -> keyed_by key cmp (x :: pq_items cmp q) ->
      pq_heap cmp key (pq_push cmp x q);
  pq_pop_heap : forall cmp key (q : pq cmp) x q',
      pq_heap cmp key q -> pq_pop cmp q = Some (x, q') ->
      pq_heap cmp key q' /\
      Forall (fun y => (key x <= key y)%Z) (pq_items cmp q')
}.

Arguments pq {A _} cmp.
Arguments pq_new {A _} cmp l.
Arguments pq_push {A _ cmp} x q.
Arguments pq_pop {A _ cmp} q.
Arguments pq_length {A _ cmp} q.
Arguments pq_items {A _ cmp} q.
Arguments pq_heap {A _ cmp} key q.

(** ** What both engines share *)

(** [{logEntry, logSourceIndex}] *)
Record item := mkItem { logEntry : popped; logSourceIndex : nat }.

(** [(a, b) => a.logEntry.date - b.logEntry.date]; [undefined - x] is
    [NaN]. *)
Definition comparator (a b : item) : jsnum :=
  match date_of (logEntry a), date_of (logEntry b) with
  | Some x, Some y => Num (x - y)
  | _, _ => NaN
  end.

(** The calls an engine makes, in program order. *)
Inductive event :=
| EPop (i : nat) (r : settled)      (* logSources[i].pop() gave r *)
| EPopAsync (i : nat)               (* logSources[i].popAsync() was called *)
| EAwait (i : nat) (r : settled)    (* the await of the promise of i gave r *)
| EInsert (it : item)               (* logEntries.push / logEntryQueue.push *)
| EPrint (v : popped)               (* printer.print(v) *)
| EDone.                            (* printer.done() *)

(** How a run ends.  [Aborted]: an error left the function.  [OutOfFuel]:
    the loop was cut after the given number of rounds.  [Stuck]: the run
    left the part of JavaScript that is modelled (an [await] of a missing
    map entry); no run does ([abort_only_on_failure]). *)
Inductive outcome := Completed | Aborted | OutOfFuel | Stuck.

(** What one round of a loop body does: go on with a new state, or leave the
    function with an error. *)
Inductive step (St : Type) :=
| Continue (s : St)
| Break (o : outcome).

Arguments Continue {St} s.
Arguments Break {St} o.

(** [while (cond) body], cut after [fuel] rounds.  Returns how the loop
    ended, the events of its rounds and the state it ended in. *)
Section While.

Context {St : Type} (cond : St -> bool) (body : St -> list event * step St).

Fixpoint while (fuel : nat) (s : St) : outcome * list event * St :=
  if cond s then
    match fuel with
    | O => (OutOfFuel, [], s)
    | S fuel' =>
        match body s with
        | (evs, Break o) => (o, evs, s)
        | (evs, Continue s') =>
            let '(o, tr, s'') := while fuel' s' in (o, evs ++ tr, s'')
        end
    end
  else (Completed, [], s).

End While.

(** ** Reading a trace *)

(** The values handed to [printer.print], in order. *)
Fixpoint printed (tr : list event) : list popped :=
  match tr with
  | [] => []
  | EPrint v :: tr' => v :: printed tr'
  | _ :: tr' => printed tr'
  end.

(** The entries a source yields before it signals exhaustion (or fails). *)
Fixpoint entries (s : Source) : list LogEntry :=
  match s with
  | Ret (PEntry e) :: s' => e :: entries s'
  | _ => []
  end.

(** The [popAsync] calls on source [i] less the awaits on source [i].  A
    count of events: it does not say which promise an await took;
    [fetches], [awaited] and [answer] below are there to say it. *)
Fixpoint calls_minus_awaits (i : nat) (tr : list event) : Z :=
  match tr with
  | [] => 0
  | EPopAsync j :: tr' => (if i =? j then 1 else 0) + calls_minus_awaits i tr'
  | EAwait j _ :: tr' => (if i =? j then -1 else 0) + calls_minus_awaits i tr'
  | _ :: tr' => calls_minus_awaits i tr'
  end.

(** The number of [popAsync] calls on source [i]: the fetches started. *)
Fixpoint fetches (i : nat) (tr : list event) : nat :=
  match tr with
  | [] => 0
  | EPopAsync j :: tr' => (if i =? j then 1 else 0) + fetches i tr'
  | _ :: tr' => fetches i tr'
  end.

(** What the awaits on the promises of source [i] gave, in order. *)
Fixpoint awaited (i : nat) (tr : list event) : list settled :=
  match tr with
  | [] => []
  | EAwait j r :: tr' => if i =? j then r :: awaited i tr' else awaited i tr'
  | _ :: tr' => awaited i tr'
  end.

(** What call number [k] (from 0) on source [s] takes from it, and so what
    its promise gives: the answer of [pop] after [k] earlier calls. *)
Definition answer (s : Source) (k : nat) : settled := fst (pop (skipn k s)).

(** Source [i] has answered [false] to the engine. *)
Fixpoint exhausted (i : nat) (tr : list event) : bool :=
  match tr with
  | [] => false
  | EPop j (Ret PFalse) :: tr' => (i =? j) || exhausted i tr'
  | EAwait j (Ret PFalse) :: tr' => (i =? j) || exhausted i tr'
  | _ :: tr' => exhausted i tr'
  end.

(** The event is a call on source [i]. *)
Definition pulls (i : nat) (ev : event) : bool :=
  match ev with
  | EPop j _ => i =? j
  | EPopAsync j => i =? j
  | EAwait j _ => i =? j
  | _ => false
  end.

(** The event is a pull that failed. *)
Definition raised (ev : event) : bool :=
  match ev with
  | EPop _ Raise => true
  | EAwait _ Raise => true
  | _ => false
  end.

(** A source that follows the contract: every pull returns an entry or
    [false]. *)
Definition source_of (l : list popped) : Source := map Ret l.

Definition by_date (a b : LogEntry) : Prop := (date a <= date b)%Z.

Section Engines.

Context {PQ : PriorityQueue item}.

(** *** The blocking engine, [sync-sorted-merge.js] *)

(** Lines 42-52: the [reduce] over [logSources].  Returns the sources after
    their first [pop] and the array [logEntries], or [None] when a [pop]
    threw. *)
Fixpoint sync_reduce (todo : list Source) (index : nat)
         (logEntries : list item)
  : option (list Source * list item) * list event :=
  match todo with
  | [] => (Some ([], logEntries), [])
  | logSource :: rest =>
      match pop logSource with
      | (Raise, _) => (None, [EPop index Raise])
      | (Ret v, logSource') =>
          if is_false v then
            let (res, tr) :=
              sync_reduce rest (S index) (logEntries ++ [mkItem v index]) in
            (option_map (fun p => (logSource' :: fst p, snd p)) res,
             EPop index (Ret v) :: EInsert (mkItem v index) :: tr)
          else
            let (res, tr) := sync_reduce rest (S index) logEntries in
            (option_map (fun p => (logSource' :: fst p, snd p)) res,
             EPop index (Ret v) :: tr)
      end
  end.

(** The state of the [while] loop: the sources and [logEntryQueue]. *)
Definition sync_state : Type := list Source * pq comparator.

(** Line 60: [logEntryQueue.length]. *)
Definition sync_cond (st : sync_state) : bool :=
  negb (pq_length (snd st) =? 0).

(** Lines 61-71: one round of the loop. *)
Definition sync_round (st : sync_state) : list event * step sync_state :=
  let (logSources, logEntryQueue) := st in
  match pq_pop logEntryQueue with
  | None => ([], Break Aborted)
  | Some (it, q1) =>
      let index := logSourceIndex it in
      match pop_at index logSources with
      | None => ([EPrint (logEntry it)], Break Aborted)
      | Some (Raise, _) =>
          ([EPrint (logEntry it); EPop index Raise], Break Aborted)
      | Some (Ret v, logSources') =>
          if is_false v then
            ([EPrint (logEntry it); EPop index (Ret v);
              EInsert (mkItem v index)],
             Continue (logSources', pq_push (mkItem v index) q1))
          else
            ([EPrint (logEntry it); EPop index (Ret v)],
             Continue (logSources', q1))
      end
  end.

(** [module.exports] of [sync-sorted-merge.js]. *)
Definition sync_sorted_merge (fuel : nat) (logSources : list Source)
  : outcome * list event :=
  match sync_reduce logSources 0 [] with
  | (None, tr) => (Aborted, tr)
  | (Some (logSources', logEntries), tr) =>
      match while sync_cond sync_round fuel
                  (logSources', pq_new comparator logEntries) with
      | (Completed, tr', _) => (Completed, tr ++ tr' ++ [EDone])
      | (o, tr', _) => (o, tr ++ tr')
      end
  end.

(** *** The pipelined engine, [async-sorted-merge.js] *)

(** [popAsync] takes the next result of the source when it is called, and
    the promise it returns settles with that result; a rejection shows where
    the promise is awaited.  (With one fetch in flight per source, this is
    what the promise of [LogSource.popAsync] gives.) *)

(** Lines 48-52: the [reduce] that calls [popAsync] on every source and
    stores the promises. *)
Fixpoint async_reduce (todo : list Source) (index : nat)
         (logEntryPromises : JsMap.t settled)
  : list Source * JsMap.t settled * list event :=
  match todo with
  | [] => ([], logEntryPromises, [])
  | logSource :: rest =>
      let (p, logSource') := pop logSource in
      let '(srcs, m, tr) :=
        async_reduce rest (S index) (JsMap.set index p logEntryPromises) in
      (logSource' :: srcs, m, EPopAsync index :: tr)
  end.

(** The state of the seeding loop: the sources, [logEntryPromises] and
    the array [logEntries]. *)
Definition seed_state : Type :=
  list Source * JsMap.t settled * list item.

(** Lines 57-68: the body of the [for ... of], at key [index]. *)
Definition async_seed_round (index : nat) (st : seed_state)
  : list event * step seed_state :=
  let '(logSources, logEntryPromises, logEntries) := st in
  match JsMap.get index logEntryPromises with
  | None => ([], Continue st)
  | Some Raise => ([EAwait index Raise], Break Aborted)
  | Some (Ret v) =>
      if is_false v then
        ([EAwait index (Ret v)],
         Continue (logSources, JsMap.delete index logEntryPromises,
                   logEntries))
      else
        match pop_at index logSources with
        | None =>
            ([EAwait index (Ret v); EInsert (mkItem v index)],
             Break Aborted)
        | Some (p, logSources') =>
            ([EAwait index (Ret v); EInsert (mkItem v index);
              EPopAsync index],
             Continue (logSources', JsMap.set index p logEntryPromises,
                       logEntries ++ [mkItem v index]))
        end
  end.

(** Lines 56-69: the [for ... of] over the entries of the map.  The body
    only touches the entry it is visiting, so the keys to visit are the
    keys at the start of the loop, in insertion order, and each promise is
    read from the map when its key is visited. *)
Fixpoint async_seed (todo : list nat) (st : seed_state)
  : outcome * list event * seed_state :=
  match todo with
  | [] => (Completed, [], st)
  | index :: rest =>
      match async_seed_round index st with
      | (evs, Break o) => (o, evs, st)
      | (evs, Continue st') =>
          let '(o, tr, st'') := async_seed rest st' in (o, evs ++ tr, st'')
      end
  end.

(** The state of the [while] loop: the sources, [logEntryPromises] and
    [logEntryQueue]. *)
Definition async_state : Type :=
  list Source * JsMap.t settled * pq comparator.

(** Line 78: [logEntryQueue.length]. *)
Definition async_cond (st : async_state) : bool :=
  negb (pq_length (snd st) =? 0).

(** Lines 79-93: one round of the loop. *)
Definition async_round (st : async_state) : list event * step async_state :=
  let '(logSources, logEntryPromises, logEntryQueue) := st in
  match pq_pop logEntryQueue with
  | None => ([], Break Aborted)
  | Some (it, q1) =>
      let index := logSourceIndex it in
      match JsMap.get index logEntryPromises with
      | None => ([EPrint (logEntry it)], Break Stuck)
      | Some Raise =>
          ([EPrint (logEntry it); EAwait index Raise], Break Aborted)
      | Some (Ret v) =>
          if is_false v then
            ([EPrint (logEntry it); EAwait index (Ret v)],
             Continue (logSources, JsMap.delete index logEntryPromises, q1))
          else
            match pop_at index logSources with
            | None =>
                ([EPrint (logEntry it); EAwait index (Ret v);
                  EInsert (mkItem v index)],
                 Break Aborted)
            | Some (p, logSources') =>
                ([EPrint (logEntry it); EAwait index (Ret v);
                  EInsert (mkItem v index); EPopAsync index],
                 Continue (logSources',
                           JsMap.set index p logEntryPromises,
                           pq_push (mkItem v index) q1))
            end
      end
  end.

(** [module.exports] of [async-sorted-merge.js].  The third component is
    the map of promises when the run ends. *)
Definition async_sorted_merge (fuel : nat) (logSources : list Source)
  : outcome * list event * JsMap.t settled :=
  let '(srcs0, m0, tr0) := async_reduce logSources 0 JsMap.empty in
  match async_seed (JsMap.keys m0) (srcs0, m0, []) with
  | (Completed, tr1, (srcs1, m1, logEntries)) =>
      match while async_cond async_round fuel
                  (srcs1, m1, pq_new comparator logEntries) with
      | (Completed, tr2, (_, m2, _)) =>
          (Completed, tr0 ++ tr1 ++ tr2 ++ [EDone], m2)
      | (o, tr2, (_, m2, _)) => (o, tr0 ++ tr1 ++ tr2, m2)
      end
  | (o, tr1, (_, m1, _)) => (o, tr0 ++ tr1, m1)
  end.

End Engines.

(** ** A list implementation of the ordering structure *)

(** Modelled from the spec: the package [@js-sdsl/priority-queue] is not in
    the sources.  "A min-priority container ... ordered by entry.timestamp
    ascending; ties broken arbitrarily but deterministically ...
    [insert(item)]; [extract-min()] returning and removing the smallest;
    [is-empty()]."  The items are kept in arrival order and [pop] takes the
    first least one. *)
Module ListQueue.

Section Ops.

Context {A : Type} (cmp : A -> A -> jsnum).

(** [n > 0] *)
Definition positive (n : jsnum) : bool :=
  match n with Num z => (0 <? z)%Z | NaN => false end.

(** Takes the least item out of [best :: l]. *)
Fixpoint select (best : A) (l : list A) : A * list A :=
  match l with
  | [] => (best, [])
  | y :: l' =>
      if positive (cmp best y) then
        let (m, r) := select y l' in (m, best :: r)
      else
        let (m, r) := select best l' in (m, y :: r)
  end.

Definition new (l : list A) : list A := l.

Definition push (x : A) (q : list A) : list A := q ++ [x].

Definition pop (q : list A) : option (A * list A) :=
  match q with
  | [] => None
  | x :: q' => Some (select x q')
  end.

End Ops.

End ListQueue.

(** * The vocabulary of the properties *)

(** ** Traces *)

(** A property of every event of a trace, given the events before it. *)
Definition each_split (R : list event -> event -> Prop)
           (h tr : list event) : Prop :=
  forall pre ev post, tr = pre ++ ev :: post -> R (h ++ pre) ev.

(** No pull has failed so far. *)
Definition unraised (h : list event) : Prop :=
  Forall (fun e => raised e = false) h.

(** Nothing follows a failed pull, and a round never signals completion. *)
Definition after_no_failure (h : list event) (ev : event) : Prop :=
  unraised h /\ ev <> EDone.


(** ** The blocking engine *)

(** The queue of the blocking engine only ever receives [false], and only
    [false] reaches the sink. *)
Definition false_item (it : item) : Prop := logEntry it = PFalse.

Definition only_false (ev : event) : Prop :=
  match ev with
  | EInsert it => false_item it
  | EPrint v => v = PFalse
  | _ => True
  end.

(** The item a source gets when its first [pop] answers [false]. *)
Definition drained_item (i : nat) : item := mkItem PFalse i.

(** The events of one round on a drained source. *)
Definition drained_round (i : nat) : list event :=
  [EPrint PFalse; EPop i (Ret PFalse); EInsert (drained_item i)].

(** The first result of the source is an entry. *)
Definition starts_with_entry (s : Source) : Prop :=
  exists e rest, s = Ret (PEntry e) :: rest.

(** The source answers [false] and nothing else. *)
Definition all_false (s : Source) : Prop :=
  Forall (fun r => r = Ret PFalse) s.

(** The first [pop] on every source, in list order. *)
Fixpoint first_pops (index : nat) (srcs : list Source) : list event :=
  match srcs with
  | [] => []
  | s :: rest => EPop index (fst (pop s)) :: first_pops (S index) rest
  end.

(** A source that starts with an entry, or one that is drained and stays
    drained, as a [LogSource] does. *)
Definition stays_drained (s : Source) : Prop :=
  starts_with_entry s \/ all_false s.

(** The item carries [false] and the index of a source that answers
    [false] and nothing else. *)
Definition drained_at (srcs : list Source) (it : item) : Prop :=
  logEntry it = PFalse /\
  exists s, nth_error srcs (logSourceIndex it) = Some s /\ all_false s.

(** ** The pipelined engine: fetches in flight *)

(** The queue of the pipelined engine only ever receives entries, and only
    entries reach the sink. *)
Definition entry_item (it : item) : Prop := exists e, logEntry it = PEntry e.

Definition only_entries (ev : event) : Prop :=
  match ev with
  | EInsert it => entry_item it
  | EPrint v => exists e, v = PEntry e
  | _ => True
  end.

(** What holds before each event of a run over [N] sources: no pull has
    failed yet; a source that is called has not answered [false]; and at an
    [await] every source has been called once more than it has been
    awaited, or as often once it has answered [false]. *)
Definition async_ok (N : nat) (h : list event) (ev : event) : Prop :=
  after_no_failure h ev /\
  (forall j, pulls j ev = true -> exhausted j h = false) /\
  (forall j r, ev = EAwait j r ->
     forall i, i < N ->
       calls_minus_awaits i h = if exhausted i h then 0%Z else 1%Z).

(** An [await] that gives an entry is followed at once by the insertion of
    that entry and by the next [popAsync] on the same source. *)
Definition refetched (tr : list event) : Prop :=
  forall pre i e post,
    tr = pre ++ EAwait i (Ret (PEntry e)) :: post ->
    exists post',
      post = EInsert (mkItem (PEntry e) i) :: EPopAsync i :: post'.

(** The state of source [i] in the bookkeeping: [live] are the indices that
    still have an item (or a turn) to come.  Which promise the map holds is
    said by [tied_inv]. *)
Definition slot (N : nat) (h : list event) (proms : JsMap.t settled)
           (live : list nat) (i : nat) : Prop :=
  (In i live /\ JsMap.get i proms <> None /\ i < N /\
   calls_minus_awaits i h = 1%Z /\ exhausted i h = false) \/
  (~ In i live /\ JsMap.get i proms = None /\
   calls_minus_awaits i h = 0%Z /\ (i < N -> exhausted i h = true)).

Definition async_inv (N : nat) (h : list event) (srcs : list Source)
           (proms : JsMap.t settled) (live : list nat) : Prop :=
  unraised h /\ length srcs = N /\ NoDup live /\
  forall i, slot N h proms live i.

(** An await takes the promise of the latest fetch on its source, and that
    fetch is the only one of the source that no await has taken: the awaits
    before it are as many as the fetches before that one. *)
Definition await_of_latest (logSources : list Source) (h : list event)
           (ev : event) : Prop :=
  forall j r, ev = EAwait j r ->
    fetches j h = S (length (awaited j h)) /\
    r = answer (nth j logSources []) (length (awaited j h)).

(** Every await on source [i] took the promise of a fetch of its own: await
    number [k] gave what call number [k] took from the source.  The fetches
    of [i] in flight after [tr] are then the calls numbered from
    [length (awaited i tr)] up to [fetches i tr]. *)
Definition awaited_in_turn (logSources : list Source) (i : nat)
           (tr : list event) : Prop :=
  awaited i tr
  = map (answer (nth i logSources [])) (seq 0 (length (awaited i tr))).

(** The sources and the map against the calls made: source [i] has lost as
    many results as it was called; a promise in the map is the one of the
    latest call on its source, the only call of that source not awaited; and
    a source without promise has had every call awaited. *)
Definition tied_inv (logSources : list Source) (h : list event)
           (srcs : list Source) (proms : JsMap.t settled) : Prop :=
  length srcs = length logSources /\
  forall i,
    nth i srcs [] = skipn (fetches i h) (nth i logSources []) /\
    match JsMap.get i proms with
    | Some p =>
        fetches i h = S (length (awaited i h)) /\
        p = answer (nth i logSources []) (length (awaited i h))
    | None => fetches i h = length (awaited i h)
    end.

(** What is claimed of the events of a round. *)
Definition async_good (N : nat) (h evs : list event) : Prop :=
  each_split (async_ok N) h evs /\ refetched evs.

(** ** How a run ends *)

(** The trace ends with a failed pull. *)
Definition ends_in_failure (tr : list event) : Prop :=
  exists pre ev, tr = pre ++ [ev] /\ raised ev = true.

(** [body] is the trace without the completion signal. *)
Definition run_shape (o : outcome) (tr body : list event) : Prop :=
  (o = Completed /\ tr = body ++ [EDone] /\ unraised body) \/
  (o = OutOfFuel /\ tr = body /\ unraised body) \/
  (o = Aborted /\ tr = body /\ ends_in_failure body).

(** The parts of the result of a run of the pipelined engine. *)
Definition async_outcome (r : outcome * list event * JsMap.t settled)
  : outcome := fst (fst r).

Definition async_trace (r : outcome * list event * JsMap.t settled)
  : list event := snd (fst r).

Definition async_promises (r : outcome * list event * JsMap.t settled)
  : JsMap.t settled := snd r.

(** ** Scenarios *)

Definition entry_at (t : Z) : LogEntry := mkLogEntry t "entry".

Definition source_at (ts : list Z) : Source :=
  source_of (map (fun t => PEntry (entry_at t)) ts).

(** Scenario 1: three sources with one entry each, at 10, 5 and 20. *)
Definition scenario1 : list Source :=
  [source_at [10%Z]; source_at [5%Z]; source_at [20%Z]].

(** Scenario 2: one source that is drained at its first pull. *)
Definition scenario2 : list Source := [source_of []].

(** Scenario 3: a source with 1, 3, 5 and a source with 2, 4. *)
Definition scenario3 : list Source :=
  [source_at [1%Z; 3%Z; 5%Z]; source_at [2%Z; 4%Z]].

(** Scenario 4: a source whose second pull fails. *)
Definition scenario4 : list Source := [[Ret (PEntry (entry_at 1)); Raise]].

(** A source that answers [false] and then fails. *)
Definition scenario4_sync : list Source := [[Ret PFalse; Raise]].

(** A source that goes back in time: 5, then 1. *)
Definition backwards : list Source := [source_at [5%Z; 1%Z]].

(** Scenario 3 as sources that follow the contract. *)
Definition sources3 : list (list popped) :=
  [[PEntry (entry_at 1); PEntry (entry_at 3); PEntry (entry_at 5)];
   [PEntry (entry_at 2); PEntry (entry_at 4)]].

(** Two sources that meet at timestamp 5: source 0 gives 1 and then 5,
    source 1 gives 5. *)
Definition tie : list Source :=
  [source_of [PEntry (mkLogEntry 1 "zero"); PEntry (mkLogEntry 5 "zero")];
   source_of [PEntry (mkLogEntry 5 "one")]].

(** ** The pipelined engine: the entries still to come *)

(** The entries source [i] has still to give: the one its promise in flight
    will give, then the ones the source has not been asked for yet. *)
Definition rest_of (srcs : list Source) (proms : JsMap.t settled) (i : nat)
  : list LogEntry :=
  match JsMap.get i proms, nth_error srcs i with
  | Some p, Some s => entries (p :: s)
  | _, _ => []
  end.

(** The entries that will come through an item of the queue: its own, then
    the rest of its source. *)
Definition item_pending (srcs : list Source) (proms : JsMap.t settled)
           (it : item) : list LogEntry :=
  match logEntry it with
  | PEntry e => e :: rest_of srcs proms (logSourceIndex it)
  | PFalse => []
  end.

Definition pending (srcs : list Source) (proms : JsMap.t settled)
           (items : list item) : list LogEntry :=
  flat_map (item_pending srcs proms) items.

(** The key the comparator sorts by. *)
Definition item_key (it : item) : Z :=
  match logEntry it with
  | PEntry e => date e
  | PFalse => 0%Z
  end.

Definition no_raise (s : Source) : Prop := Forall (fun r => r <> Raise) s.

(** An item of the queue is an entry, and its source has a promise in
    flight that will not fail. *)
Definition item_ready (srcs : list Source) (proms : JsMap.t settled)
           (it : item) : Prop :=
  exists e v s,
    logEntry it = PEntry e /\
    JsMap.get (logSourceIndex it) proms = Some (Ret v) /\
    nth_error srcs (logSourceIndex it) = Some s.

(** The invariant of the queue: one item per source, each ready, and no
    source that fails. *)
Definition content_inv (srcs : list Source) (proms : JsMap.t settled)
           (items : list item) : Prop :=
  NoDup (map logSourceIndex items) /\
  (forall it, In it items -> item_ready srcs proms it) /\
  Forall no_raise srcs.

(** Every source gives what it still has in time order. *)
Definition sorted_items (srcs : list Source) (proms : JsMap.t settled)
           (items : list item) : Prop :=
  forall it, In it items -> StronglySorted by_date (item_pending srcs proms it).

(** The invariant of the seeding loop: [les] are the items recorded so far,
    [todo] the keys still to visit. *)
Definition seed_inv (srcs : list Source) (proms : JsMap.t settled)
           (les : list item) (todo : list nat) : Prop :=
  NoDup (map logSourceIndex les ++ todo) /\
  (forall it, In it les -> item_ready srcs proms it) /\
  (forall k, In k todo ->
     exists v s, JsMap.get k proms = Some (Ret v) /\
                 nth_error srcs k = Some s) /\
  Forall no_raise srcs.

(** ** Ties *)

(** Ties between equal timestamps are decided by the source index: the
    comparator puts the lower index first. *)
Definition breaks_ties_by_index (cmp : item -> item -> jsnum) : Prop :=
  forall ea eb i j,
    date ea = date eb -> i < j ->
    exists z, cmp (mkItem (PEntry ea) i) (mkItem (PEntry eb) j) = Num z /\
              (z < 0)%Z.

(** * Properties *)

(** ** Lists, maps *)

Lemma nth_error_update_eq {A} (l : list A) i x :
  i < length l -> nth_error (update i x l) i = Some x.
Proof.
  revert i; induction l as [|y l IH]; intros [|i] H; simpl in *; try lia; auto.
  apply IH; lia.
Qed.

Lemma nth_error_update_ne {A} (l : list A) i j x :
  i <> j -> nth_error (update i x l) j = nth_error l j.
Proof.
  revert i j; induction l as [|y l IH]; intros [|i] [|j] H; simpl; auto;
    try lia.
Qed.

Lemma length_update {A} (l : list A) i x : length (update i x l) = length l.
Proof.
  revert i; induction l as [|y l IH]; intros [|i]; simpl; auto.
Qed.

Module JsMapFacts.
Import JsMap.

Lemma get_set_eq {V} k (v : V) m : get k (set k v m) = Some v.
Proof.
  induction m as [|[k' v'] m IH]; simpl.
  - now rewrite Nat.eqb_refl.
  - destruct (k =? k') eqn:E; simpl; rewrite ?Nat.eqb_refl, ?E; auto.
Qed.

Lemma get_set_ne {V} k j (v : V) m : k <> j -> get j (set k v m) = get j m.
Proof.
  intros H; induction m as [|[k' v'] m IH]; simpl.
  - destruct (j =? k) eqn:E; auto. apply Nat.eqb_eq in E; congruence.
  - destruct (k =? k') eqn:E; simpl.
    + apply Nat.eqb_eq in E; subst k'.
      destruct (j =? k) eqn:E'; auto. apply Nat.eqb_eq in E'; congruence.
    + now rewrite IH.
Qed.

Lemma get_delete_eq {V} k (m : t V) : get k (delete k m) = None.
Proof.
  induction m as [|[k' v'] m IH]; simpl; auto.
  destruct (k =? k') eqn:E; simpl; rewrite ?E; auto.
Qed.

Lemma get_delete_ne {V} k j (m : t V) :
  k <> j -> get j (delete k m) = get j m.
Proof.
  intros H; induction m as [|[k' v'] m IH]; simpl; auto.
  destruct (k =? k') eqn:E; simpl.
  - apply Nat.eqb_eq in E; subst k'.
    destruct (j =? k) eqn:E'; auto. apply Nat.eqb_eq in E'; congruence.
  - now rewrite IH.
Qed.

Lemma get_none_all {V} (m : t V) : (forall k, get k m = None) -> m = empty.
Proof.
  destruct m as [|[k v] m]; auto.
  intros H; specialize (H k); simpl in H.
  now rewrite Nat.eqb_refl in H.
Qed.

Lemma get_some_keys {V} k (m : t V) : get k m <> None <-> In k (keys m).
Proof.
  induction m as [|[k' v'] m IH]; simpl.
  - tauto.
  - destruct (k =? k') eqn:E.
    + apply Nat.eqb_eq in E. split; [auto | congruence].
    + apply Nat.eqb_neq in E. rewrite IH.
      split; [auto | intros [?|?]; congruence || auto].
Qed.

Lemma keys_set_in {V} k (v : V) m :
  In k (keys m) -> keys (set k v m) = keys m.
Proof.
  induction m as [|[k' v'] m IH]; simpl; [tauto|].
  destruct (k =? k') eqn:E; simpl.
  - apply Nat.eqb_eq in E; now subst.
  - apply Nat.eqb_neq in E. intros [?|?]; [congruence|]. now rewrite IH.
Qed.

Lemma keys_set_new {V} k (v : V) m :
  ~ In k (keys m) -> keys (set k v m) = keys m ++ [k].
Proof.
  induction m as [|[k' v'] m IH]; simpl; auto.
  destruct (k =? k') eqn:E; simpl.
  - apply Nat.eqb_eq in E; subst; tauto.
  - intros H; rewrite IH; auto.
Qed.

End JsMapFacts.

(** ** The list queue is a priority queue *)

Module ListQueueFacts.
Import ListQueue.

Section Laws.

Context {A : Type} (cmp : A -> A -> jsnum).

Lemma select_perm l : forall best m r,
    select cmp best l = (m, r) -> Permutation (best :: l) (m :: r).
Proof.
  induction l as [|y l IH]; simpl; intros best m r H.
  - now inversion H.
  - destruct (positive (cmp best y)).
    + destruct (select cmp y l) as [m' r'] eqn:E. inversion H; subst.
      etransitivity; [apply perm_skip, (IH _ _ _ E) | apply perm_swap].
    + destruct (select cmp best l) as [m' r'] eqn:E. inversion H; subst.
      etransitivity; [apply perm_swap|].
      etransitivity; [apply perm_skip, (IH _ _ _ E) | apply perm_swap].
Qed.

Lemma keyed_by_incl key (l l' : list A) :
  incl l' l -> keyed_by key cmp l -> keyed_by key cmp l'.
Proof. intros Hi Hk a b Ha Hb. apply Hk; auto. Qed.

Lemma select_least key l : forall best m r,
    keyed_by key cmp (best :: l) ->
    select cmp best l = (m, r) ->
    (key m <= key best)%Z /\ Forall (fun y => (key m <= key y)%Z) r.
Proof.
  induction l as [|y l IH]; simpl; intros best m r Hk H.
  - inversion H; subst. split; [lia | constructor].
  - destruct (Hk best y) as (z & Hz & Hs); simpl; auto.
    rewrite Hz in H; simpl in H.
    destruct (0 <? z)%Z eqn:Ez.
    + apply Z.ltb_lt in Ez.
      destruct (select cmp y l) as [m' r'] eqn:E. inversion H; subst.
      destruct (IH y m r') as [H1 H2]; auto.
      { eapply keyed_by_incl; [|exact Hk]. intros x Hx; simpl in *; tauto. }
      assert (key y < key best)%Z by (destruct z; simpl in Hs; lia).
      split; [lia|]. constructor; [lia | auto].
    + apply Z.ltb_ge in Ez.
      destruct (select cmp best l) as [m' r'] eqn:E. inversion H; subst.
      destruct (IH best m r') as [H1 H2]; auto.
      { eapply keyed_by_incl; [|exact Hk]. intros x Hx; simpl in *; tauto. }
      assert (key best <= key y)%Z by (destruct z; simpl in Hs; lia).
      split; [lia|]. constructor; [lia | auto].
Qed.

Lemma push_items x (q : list A) : Permutation (push x q) (x :: q).
Proof. unfold push. rewrite Permutation_app_comm. reflexivity. Qed.

Lemma pop_none (q : list A) : q = [] -> pop cmp q = None.
Proof. now intros ->. Qed.

Lemma pop_some (q : list A) :
  q <> [] ->
  exists x q', pop cmp q = Some (x, q') /\ Permutation q (x :: q').
Proof.
  destruct q as [|x q]; [congruence|]. intros _.
  simpl. destruct (select cmp x q) as [m r] eqn:E.
  exists m, r. split; auto. eapply select_perm; eauto.
Qed.

Lemma push_heap key x (q : list A) :
  keyed_by key cmp q -> keyed_by key cmp (x :: q) ->
  keyed_by key cmp (push x q).
Proof.
  intros _ H. eapply keyed_by_incl; [|exact H].
  intros y Hy. apply in_app_or in Hy. simpl in *. tauto.
Qed.

Lemma pop_heap key (q : list A) x q' :
  keyed_by key cmp q -> pop cmp q = Some (x, q') ->
  keyed_by key cmp q' /\ Forall (fun y => (key x <= key y)%Z) q'.
Proof.
  intros Hk Hp.
  destruct q as [|y q]; simpl in Hp; [discriminate|]. inversion Hp as [E].
  split.
  - eapply keyed_by_incl; [|exact Hk].
    intros a Ha.
    apply (Permutation_in a (Permutation_sym (select_perm _ _ _ _ E))).
    now right.
  - eapply select_least; eauto.
Qed.

End Laws.

End ListQueueFacts.

#[export] Instance list_queue {A : Type} : PriorityQueue A := {|
  pq := fun _ => list A;
  pq_new := fun cmp l => ListQueue.new l;
  pq_push := fun cmp x q => ListQueue.push x q;
  pq_pop := fun cmp q => ListQueue.pop cmp q;
  pq_length := fun cmp q => length q;
  pq_items := fun cmp q => q;
  pq_heap := fun cmp key q => keyed_by key cmp q;
  pq_new_items := fun cmp l => Permutation_refl l;
  pq_push_items := fun cmp x q => ListQueueFacts.push_items x q;
  pq_length_items := fun cmp q => eq_refl;
  pq_pop_none := fun cmp q => ListQueueFacts.pop_none cmp q;
  pq_pop_some := fun cmp q => ListQueueFacts.pop_some cmp q;
  pq_new_heap := fun cmp key l H => H;
  pq_push_heap := fun cmp key x q => ListQueueFacts.push_heap cmp key x q;
  pq_pop_heap := fun cmp key q x q' => ListQueueFacts.pop_heap cmp key q x q'
|}.

(** ** Loops *)

Section WhileFacts.

Context {St : Type} (cond : St -> bool) (body : St -> list event * step St).

(** [Inv h s]: the invariant of the loop, at state [s] after the events
    [h].  [Good h evs]: what is claimed of the events [evs] that follow
    [h].  [Brk o evs]: what is claimed when the body leaves the loop. *)
Variable Inv : list event -> St -> Prop.
Variable Good : list event -> list event -> Prop.
Variable Brk : outcome -> list event -> Prop.

Hypothesis Good_nil : forall h, Good h [].
Hypothesis Good_app :
  forall h a b, Good h a -> Good (h ++ a) b -> Good h (a ++ b).
Hypothesis Brk_app : forall o a b, Brk o b -> Brk o (a ++ b).
Hypothesis body_ok :
  forall h s evs r,
    Inv h s -> cond s = true -> body s = (evs, r) ->
    Good h evs /\
    match r with
    | Continue s' => Inv (h ++ evs) s'
    | Break o => Brk o evs
    end.

Lemma while_S fuel s :
  while cond body (S fuel) s =
  if cond s then
    match body s with
    | (evs, Break o) => (o, evs, s)
    | (evs, Continue s') =>
        let '(o, tr, s'') := while cond body fuel s' in (o, evs ++ tr, s'')
    end
  else (Completed, [], s).
Proof. reflexivity. Qed.

Lemma while_stop fuel s :
  cond s = false -> while cond body fuel s = (Completed, [], s).
Proof. intros C; destruct fuel; simpl; now rewrite C. Qed.

Lemma while_inv fuel : forall h s o tr s',
    Inv h s -> while cond body fuel s = (o, tr, s') ->
    Good h tr /\
    ((o = Completed /\ Inv (h ++ tr) s' /\ cond s' = false) \/
     (o = OutOfFuel /\ Inv (h ++ tr) s' /\ cond s' = true) \/
     Brk o tr).
Proof.
  induction fuel as [|fuel IH]; intros h s o tr s' HI H; simpl in H.
  - destruct (cond s) eqn:C; inversion H; subst; split; auto;
      rewrite app_nil_r; auto.
  - destruct (cond s) eqn:C.
    + destruct (body s) as [evs r] eqn:B.
      destruct (body_ok _ _ _ _ HI C B) as [G R].
      destruct r as [s1|o1].
      * destruct (while cond body fuel s1) as [[o2 tr2] s2] eqn:W.
        inversion H; subst.
        destruct (IH _ _ _ _ _ R W) as [G2 P2].
        split; [auto|].
        rewrite app_assoc.
        destruct P2 as [P2|[P2|P2]]; auto.
      * inversion H; subst. auto.
    + inversion H; subst. split; auto.
      left. rewrite app_nil_r. auto.
Qed.

End WhileFacts.

Lemma each_split_nil R h : each_split R h [].
Proof. intros [|? ?] ev post H; discriminate. Qed.

Lemma each_split_app R h a b :
  each_split R h a -> each_split R (h ++ a) b -> each_split R h (a ++ b).
Proof.
  intros Ha Hb pre ev post H.
  revert h pre Ha Hb H. induction a as [|x a IH]; intros h pre Ha Hb H.
  - simpl in H. rewrite app_nil_r in Hb. eapply Hb; eauto.
  - destruct pre as [|y pre]; simpl in H; inversion H; subst.
    + apply (Ha [] ev a). reflexivity.
    + replace (h ++ y :: pre) with ((h ++ [y]) ++ pre)
        by (rewrite <- app_assoc; reflexivity).
      apply IH with (h := h ++ [y]); auto.
      * intros pre' ev' post' E.
        rewrite <- app_assoc. simpl.
        apply (Ha (y :: pre') ev' post'). simpl; now rewrite E.
      * rewrite <- app_assoc. exact Hb.
  Qed.

Lemma each_split_cons R h ev tr :
  R h ev -> each_split R (h ++ [ev]) tr -> each_split R h (ev :: tr).
Proof.
  intros H1 H2. change (ev :: tr) with ([ev] ++ tr).
  apply each_split_app; auto.
  intros [|? [|? ?]] ev' post E; inversion E; subst.
  now rewrite app_nil_r.
Qed.

(** ** The queue interface *)

Section QueueFacts.

Context {A : Type} {PQ : PriorityQueue A} (cmp : A -> A -> jsnum).

Lemma pq_pop_perm (q : pq cmp) x q' :
  pq_pop q = Some (x, q') -> Permutation (pq_items q) (x :: pq_items q').
Proof.
  intros H. destruct (pq_items q) eqn:E.
  - rewrite (pq_pop_none _ _ E) in H. discriminate.
  - destruct (pq_pop_some cmp q) as (y & q1 & H1 & H2).
    + rewrite E; discriminate.
    + rewrite H1 in H; inversion H; subst. now rewrite <- E.
Qed.

Lemma pq_length_zero (q : pq cmp) :
  (pq_length q =? 0) = true <-> pq_items q = [].
Proof.
  rewrite Nat.eqb_eq, pq_length_items. apply length_zero_iff_nil.
Qed.

Lemma pq_pop_nonempty (q : pq cmp) :
  (pq_length q =? 0) = false ->
  exists x q', pq_pop q = Some (x, q') /\
               Permutation (pq_items q) (x :: pq_items q').
Proof.
  intros H. apply pq_pop_some. intros E.
  apply pq_length_zero in E. congruence.
Qed.

End QueueFacts.

Arguments pq_pop_perm {A PQ cmp q x q'} _.
Arguments pq_pop_nonempty {A PQ cmp q} _.

(** ** What holds of every run: failures *)

Lemma unraised_app h a : unraised h -> unraised a -> unraised (h ++ a).
Proof. intros; apply Forall_app; auto. Qed.

Lemma unraised_snoc h ev :
  unraised h -> raised ev = false -> unraised (h ++ [ev]).
Proof. intros; apply unraised_app; auto. constructor; auto. Qed.

Lemma each_split_weaken (R R' : list event -> event -> Prop) h tr :
  (forall hist ev, R hist ev -> R' hist ev) ->
  each_split R h tr -> each_split R' h tr.
Proof. intros H E pre ev post Eq. eauto. Qed.

Lemma failure_is_last tr pre ev post :
  each_split after_no_failure [] tr ->
  tr = pre ++ ev :: post -> raised ev = true ->
  post = [] /\ ~ In EDone tr.
Proof.
  intros E Eq Hr. split.
  - destruct post as [|ev' post]; auto. exfalso.
    destruct (E (pre ++ [ev]) ev' post) as [U _].
    + rewrite Eq, <- app_assoc. reflexivity.
    + simpl in U. apply Forall_app in U as [_ U].
      inversion U; congruence.
  - intros Hin. apply in_split in Hin as (l1 & l2 & E2).
    destruct (E l1 EDone l2 E2) as [_ N]. congruence.
Qed.

Lemma unraised_no_failure tr pre ev post :
  unraised tr -> tr = pre ++ ev :: post -> raised ev = true -> False.
Proof.
  intros U -> Hr. apply Forall_app in U as [_ U].
  inversion U; congruence.
Qed.

Lemma ends_in_failure_app a b :
  ends_in_failure b -> ends_in_failure (a ++ b).
Proof.
  intros (pre & ev & -> & H). exists (a ++ pre), ev.
  now rewrite app_assoc.
Qed.

Lemma ends_in_failure_last pre ev :
  raised ev = true -> ends_in_failure (pre ++ [ev]).
Proof. intros H. exists pre, ev. auto. Qed.

(** Closes [each_split R h [e1; ...; en]] goals, leaving one [R] goal per
    event. *)
Ltac split_events :=
  repeat (apply each_split_cons; [|rewrite <- ?app_assoc; simpl]);
  try apply each_split_nil.

Ltac unraised_tac :=
  repeat (apply unraised_snoc || apply unraised_app); auto;
  repeat (constructor; auto).

(** ** The blocking engine *)

Section SyncFacts.

Context {PQ : PriorityQueue item}.

Lemma is_false_true v : is_false v = true -> v = PFalse.
Proof. destruct v; simpl; congruence. Qed.

Lemma sync_reduce_only_false todo : forall index les res tr,
    sync_reduce todo index les = (res, tr) ->
    Forall false_item les ->
    Forall only_false tr /\
    (forall srcs les', res = Some (srcs, les') -> Forall false_item les').
Proof.
  induction todo as [|s todo IH]; simpl; intros index les res tr H F.
  - inversion H; subst. split; [constructor|].
    intros ? ? E; inversion E; subst; auto.
  - destruct (pop s) as [[v|] s'].
    + destruct (is_false v) eqn:Ev.
      * destruct (sync_reduce todo (S index) (les ++ [mkItem v index]))
          as [res' tr'] eqn:E.
        inversion H; subst.
        apply is_false_true in Ev; subst v.
        destruct (IH _ _ _ _ E) as [H1 H2].
        { apply Forall_app; split; auto. constructor; auto. reflexivity. }
        split.
        -- repeat constructor; auto.
        -- intros srcs les' Eq. destruct res' as [[a b]|]; inversion Eq; subst.
           eapply H2; eauto.
      * destruct (sync_reduce todo (S index) les) as [res' tr'] eqn:E.
        inversion H; subst.
        destruct (IH _ _ _ _ E F) as [H1 H2].
        split.
        -- repeat constructor; auto.
        -- intros srcs les' Eq. destruct res' as [[a b]|]; inversion Eq; subst.
           eapply H2; eauto.
    + inversion H; subst. split; [repeat constructor | discriminate].
Qed.

Lemma sync_round_only_false st evs r :
  Forall false_item (pq_items (snd st)) ->
  sync_round st = (evs, r) ->
  Forall only_false evs /\
  match r with
  | Continue st' => Forall false_item (pq_items (snd st'))
  | Break _ => True
  end.
Proof.
  destruct st as [srcs q]; simpl. intros F H.
  destruct (pq_pop q) as [[it q1]|] eqn:P.
  - pose proof (pq_pop_perm P) as Hp.
    assert (Fp : Forall false_item (it :: pq_items q1))
      by (eapply Permutation_Forall; eauto).
    inversion Fp as [|? ? Hit Hq1]; subst.
    destruct (pop_at (logSourceIndex it) srcs) as [[[v|] srcs']|].
    + destruct (is_false v) eqn:Ev; inversion H; subst; simpl.
      * apply is_false_true in Ev; subst v. split.
        -- repeat constructor; auto.
        -- eapply Permutation_Forall;
             [apply Permutation_sym, pq_push_items|].
           constructor; auto. reflexivity.
      * split; auto; repeat constructor; auto.
    + inversion H; subst. split; auto; repeat constructor; auto.
    + inversion H; subst. split; auto; repeat constructor; auto.
  - inversion H; subst. split; auto.
Qed.

Lemma sync_only_false fuel logSources o tr :
  sync_sorted_merge fuel logSources = (o, tr) -> Forall only_false tr.
Proof.
  unfold sync_sorted_merge.
  destruct (sync_reduce logSources 0 []) as [res tr0] eqn:R.
  destruct (sync_reduce_only_false _ _ _ _ _ R) as [H0 H1]; [constructor|].
  destruct res as [[srcs les]|]; [|intros H; inversion H; subst; auto].
  destruct (while sync_cond sync_round fuel (srcs, pq_new comparator les))
    as [[o1 tr1] s1] eqn:W.
  assert (G : Forall only_false tr1).
  { eapply (while_inv sync_cond sync_round
              (fun _ st => Forall false_item (pq_items (snd st)))
              (fun _ evs => Forall only_false evs)
              (fun _ _ => True)) with (h := []) in W.
    - tauto.
    - constructor.
    - intros; apply Forall_app; auto.
    - auto.
    - intros h s evs r Hi _ Hb. eapply sync_round_only_false; eauto.
    - simpl. eapply Permutation_Forall;
        [apply Permutation_sym, pq_new_items|]. eapply H1; eauto. }
  intros H.
  assert (Forall only_false (tr0 ++ tr1)) by (apply Forall_app; auto).
  destruct o1; inversion H; subst; auto.
  rewrite app_assoc. apply Forall_app; split; auto. repeat constructor.
Qed.

End SyncFacts.

(** C9.  In the blocking engine every item put into [logEntries] or pushed
    on [logEntryQueue] carries [logEntry === false], and every value passed
    to [printer.print] is [false]: no log entry reaches the queue or the
    sink, whatever the sources, the queue implementation and the number of
    rounds. *)
Theorem sync_queue_and_sink_see_only_false :
  forall (PQ : PriorityQueue item) (fuel : nat) (logSources : list Source),
    Forall only_false (snd (sync_sorted_merge fuel logSources)).
Proof.
  intros PQ fuel logSources.
  destruct (sync_sorted_merge fuel logSources) as [o tr] eqn:E.
  simpl. eapply sync_only_false; eauto.
Qed.

(** *** The blocking engine on the scenarios of the specification *)

Section SyncScenarios.

Context {PQ : PriorityQueue item}.

Lemma sync_cond_items (st : sync_state) :
  sync_cond st = negb (length (pq_items (snd st)) =? 0).
Proof. unfold sync_cond. now rewrite pq_length_items. Qed.

(** One source, drained from the start: each round prints [false], pops the
    source again and pushes [false] back. *)
Lemma sync_round_drained (q : pq comparator) :
  Permutation (pq_items q) [drained_item 0] ->
  sync_cond ([[]], q) = true /\
  exists q', sync_round ([[]], q) = (drained_round 0, Continue ([[]], q')) /\
             Permutation (pq_items q') [drained_item 0].
Proof.
  intros Hq. assert (C : sync_cond ([[]], q) = true).
  { rewrite sync_cond_items; simpl.
    now rewrite (Permutation_length Hq). }
  split; auto.
  unfold sync_cond in C; simpl in C. apply negb_true_iff in C.
  destruct (pq_pop_nonempty C) as (x & q1 & P & Hp).
  assert (E : x :: pq_items q1 = [drained_item 0]).
  { apply Permutation_length_1_inv.
    rewrite <- Hp. now apply Permutation_sym. }
  inversion E as [[Ex Eq]]. subst x.
  exists (pq_push (drained_item 0) q1). split.
  - unfold sync_round. rewrite P. reflexivity.
  - rewrite pq_push_items, Eq. reflexivity.
Qed.

Lemma sync_loop_drained fuel : forall q,
    Permutation (pq_items q) [drained_item 0] ->
    exists q',
      while sync_cond sync_round fuel ([[]], q)
      = (OutOfFuel, concat (repeat (drained_round 0) fuel), ([[]], q')).
Proof.
  induction fuel as [|fuel IH]; intros q Hq;
    destruct (sync_round_drained q Hq) as (C & q1 & R & Hq1).
  - exists q. simpl. now rewrite C.
  - destruct (IH q1 Hq1) as (q2 & W).
    exists q2. rewrite while_S, C, R, W. reflexivity.
Qed.

Lemma sync_drained_source fuel :
  sync_sorted_merge fuel [source_of []]
  = (OutOfFuel,
     [EPop 0 (Ret PFalse); EInsert (drained_item 0)]
       ++ concat (repeat (drained_round 0) fuel)).
Proof.
  destruct (sync_loop_drained fuel (pq_new comparator [drained_item 0]))
    as (q' & W).
  - apply pq_new_items.
  - unfold sync_sorted_merge; simpl.
    match type of W with
    | ?lhs = _ =>
        match goal with
        | |- context [while ?c ?b ?f ?s] => change (while c b f s) with lhs
        end
    end.
    rewrite W. reflexivity.
Qed.

(** When the first [pop] of every source answers an entry, the queue starts
    empty and the loop is not entered. *)
Lemma sync_loop_empty fuel srcs :
  while sync_cond sync_round fuel (srcs, pq_new comparator [])
  = (Completed, [], (srcs, pq_new comparator [])).
Proof.
  assert (C : sync_cond (srcs, pq_new comparator []) = false).
  { rewrite sync_cond_items. simpl.
    rewrite (Permutation_length (pq_new_items comparator [])). reflexivity. }
  destruct fuel; simpl; now rewrite C.
Qed.

End SyncScenarios.

(** ** The pipelined engine: bookkeeping *)

Lemma calls_minus_awaits_app i a b :
  calls_minus_awaits i (a ++ b)
  = (calls_minus_awaits i a + calls_minus_awaits i b)%Z.
Proof.
  induction a as [|[] a IH]; simpl; rewrite ?IH; lia.
Qed.

Lemma exhausted_app i a b :
  exhausted i (a ++ b) = exhausted i a || exhausted i b.
Proof.
  induction a as [|[? [[|]|]|?|? [[|]|]|?|?|] a IH]; simpl; rewrite ?IH;
    auto using orb_assoc.
Qed.

Lemma refetched_nil : refetched [].
Proof. intros [|? ?] ? ? ? H; discriminate. Qed.

Lemma refetched_app a b : refetched a -> refetched b -> refetched (a ++ b).
Proof.
  intros Ha Hb pre i e post H.
  apply app_eq_app in H as [l [[H1 H2]|[H1 H2]]].
  - destruct l as [|x l]; simpl in H2.
    + destruct (Hb [] i e post) as [post' Hp]; [now rewrite <- H2|].
      eauto.
    + inversion H2; subst.
      destruct (Ha pre i e l eq_refl) as [post' Hp]. subst l.
      eexists. simpl. reflexivity.
  - subst. destruct (Hb l i e post eq_refl) as [post' Hp]. eauto.
Qed.

Lemma pop_at_some i srcs :
  i < length srcs ->
  exists s, nth_error srcs i = Some s /\
            pop_at i srcs = Some (fst (pop s), update i (snd (pop s)) srcs).
Proof.
  intros H. unfold pop_at.
  destruct (nth_error srcs i) as [s|] eqn:E.
  - exists s. split; auto. now destruct (pop s).
  - apply nth_error_None in E. lia.
Qed.

Lemma pop_at_length i srcs p srcs' :
  pop_at i srcs = Some (p, srcs') -> length srcs' = length srcs.
Proof.
  unfold pop_at. destruct (nth_error srcs i); [|discriminate].
  destruct (pop s). intros H; inversion H. apply length_update.
Qed.

Section AsyncBookkeeping.

Variable N : nat.

Lemma async_inv_perm h srcs proms live live' :
  Permutation live live' ->
  async_inv N h srcs proms live -> async_inv N h srcs proms live'.
Proof.
  intros P (U & L & D & S). repeat split; auto.
  - eapply Permutation_NoDup; eauto.
  - intros i. destruct (S i) as [(I & H)|(I & H)]; [left|right]; split; auto.
    + eapply Permutation_in; eauto.
    + intros I'. apply I.
      eapply Permutation_in; [apply Permutation_sym|]; eauto.
Qed.

Lemma async_inv_live h srcs proms live k :
  async_inv N h srcs proms live -> In k live ->
  JsMap.get k proms <> None /\ k < length srcs /\ exhausted k h = false.
Proof.
  intros (U & L & D & S) I. destruct (S k) as [H|H]; [|tauto].
  rewrite L. tauto.
Qed.

Lemma async_inv_tight h srcs proms live k :
  async_inv N h srcs proms live -> JsMap.get k proms <> None -> In k live.
Proof.
  intros (U & L & D & S) G. destruct (S k) as [H|H]; tauto.
Qed.

(** Before an [await]: one call more than awaits on each source that has
    not answered [false]. *)
Lemma async_inv_await_ok h srcs proms live k r :
  async_inv N h srcs proms live -> In k live -> async_ok N h (EAwait k r).
Proof.
  intros (U & L & D & S) I. repeat split; auto; try discriminate.
  - simpl. intros j E. apply Nat.eqb_eq in E; subst j.
    destruct (S k) as [H|H]; tauto.
  - intros j r' _ i Hi. destruct (S i) as [H|H].
    + destruct H as (_ & _ & _ & -> & ->). reflexivity.
    + destruct H as (_ & _ & -> & E). now rewrite E.
Qed.

(** Events that are no call on a source leave the bookkeeping alone. *)
Lemma async_inv_print h srcs proms live v :
  async_inv N h srcs proms live ->
  async_inv N (h ++ [EPrint v]) srcs proms live.
Proof.
  intros (U & L & D & S). repeat split; auto.
  - unraised_tac.
  - intros i. unfold slot. rewrite calls_minus_awaits_app, exhausted_app. simpl.
    rewrite Z.add_0_r, orb_false_r. apply S.
Qed.

(** The source at [k] answers [false]: its entry is deleted. *)
Lemma async_inv_await_false h srcs proms k live :
  async_inv N h srcs proms (k :: live) ->
  async_inv N (h ++ [EAwait k (Ret PFalse)]) srcs (JsMap.delete k proms) live.
Proof.
  intros (U & L & D & S). inversion D as [|? ? Nk D']; subst.
  repeat split; auto.
  - unraised_tac.
  - intros i. unfold slot. rewrite calls_minus_awaits_app, exhausted_app. simpl.
    destruct (Nat.eq_dec i k) as [->|Ne].
    + right. rewrite Nat.eqb_refl, JsMapFacts.get_delete_eq.
      destruct (S k) as [H|H]; [|simpl in H; tauto].
      destruct H as (_ & _ & _ & -> & _).
      repeat split; auto. now rewrite orb_true_r.
    + assert (E : (i =? k) = false) by now apply Nat.eqb_neq.
      rewrite E, JsMapFacts.get_delete_ne by auto.
      rewrite Z.add_0_r, orb_false_r.
      destruct (S i) as [H|H]; [left|right]; simpl in H; intuition congruence.
Qed.

(** The source at [k] answers an entry: the entry is inserted and the next
    fetch is started. *)
Lemma async_inv_await_entry h srcs proms live k e it p srcs' :
  async_inv N h srcs proms live -> In k live ->
  pop_at k srcs = Some (p, srcs') ->
  async_inv N (h ++ [EAwait k (Ret (PEntry e)); EInsert it; EPopAsync k])
            srcs' (JsMap.set k p proms) live.
Proof.
  intros (U & L & D & S) I P. repeat split; auto.
  - unraised_tac.
  - rewrite <- L. eapply pop_at_length; eauto.
  - intros i. unfold slot. rewrite calls_minus_awaits_app, exhausted_app. simpl.
    rewrite orb_false_r.
    destruct (Nat.eq_dec i k) as [->|Ne].
    + left. rewrite Nat.eqb_refl, JsMapFacts.get_set_eq.
      destruct (S k) as [H|H]; [|tauto].
      destruct H as (_ & _ & ? & -> & ?).
      repeat split; auto; try discriminate.
    + assert (E : (i =? k) = false) by now apply Nat.eqb_neq.
      rewrite E, JsMapFacts.get_set_ne by auto.
      rewrite !Z.add_0_l, Z.add_0_r. apply S.
Qed.

End AsyncBookkeeping.

Arguments async_inv_perm {N h srcs proms live live'} _ _.
Arguments async_inv_live {N h srcs proms live k} _ _.
Arguments async_inv_tight {N h srcs proms live k} _ _.
Arguments async_inv_await_ok {N h srcs proms live k} r _ _.
Arguments async_inv_print {N h srcs proms live} v _.
Arguments async_inv_await_false {N h srcs proms k live} _.
Arguments async_inv_await_entry {N h srcs proms live k} e it {p srcs'} _ _ _.

Lemma refetched_quiet ev tr :
  (forall i e, ev <> EAwait i (Ret (PEntry e))) ->
  refetched tr -> refetched (ev :: tr).
Proof.
  intros Hq Ht pre i e post H.
  destruct pre as [|x pre]; simpl in H; inversion H; subst.
  - exfalso. eapply Hq; eauto.
  - eapply Ht; eauto.
Qed.

Lemma refetched_await i e tr :
  refetched tr ->
  refetched (EAwait i (Ret (PEntry e)) :: EInsert (mkItem (PEntry e) i)
               :: EPopAsync i :: tr).
Proof.
  intros Ht pre j e' post H.
  destruct pre as [|x pre]; simpl in H; inversion H; subst; eauto.
  eapply (@refetched_quiet (EInsert (mkItem (PEntry e) i))); try discriminate.
  - eapply (@refetched_quiet (EPopAsync i)); try discriminate. exact Ht.
  - eauto.
Qed.

Lemma async_ok_quiet N h ev :
  unraised h -> (forall j, pulls j ev = false) -> ev <> EDone ->
  async_ok N h ev.
Proof.
  intros U Q D. repeat split; auto.
  - intros j E. rewrite Q in E. discriminate.
  - intros j r E. subst ev. specialize (Q j). simpl in Q.
    now rewrite Nat.eqb_refl in Q.
Qed.

Lemma async_ok_popasync N h k :
  unraised h -> exhausted k h = false -> async_ok N h (EPopAsync k).
Proof.
  intros U E. repeat split; auto; try discriminate.
  simpl. intros j Ej. apply Nat.eqb_eq in Ej. now subst.
Qed.

Section AsyncRounds.

Context {PQ : PriorityQueue item}.
Variable N : nat.

Lemma async_good_nil h : async_good N h [].
Proof. split; [apply each_split_nil | apply refetched_nil]. Qed.

Lemma async_good_app h a b :
  async_good N h a -> async_good N (h ++ a) b -> async_good N h (a ++ b).
Proof.
  intros [A1 A2] [B1 B2]. split.
  - now apply each_split_app.
  - now apply refetched_app.
Qed.

(** The events of awaiting the promise of [k], for each way it settles. *)
Lemma await_raise_good h srcs proms live k :
  async_inv N h srcs proms live -> In k live ->
  async_good N h [EAwait k Raise].
Proof.
  intros I K. split.
  - split_events. eapply async_inv_await_ok; eauto.
  - apply refetched_quiet; [discriminate | apply refetched_nil].
Qed.

Lemma await_false_good h srcs proms live k :
  async_inv N h srcs proms live -> In k live ->
  async_good N h [EAwait k (Ret PFalse)].
Proof.
  intros I K. split.
  - split_events. eapply async_inv_await_ok; eauto.
  - apply refetched_quiet; [discriminate | apply refetched_nil].
Qed.

Lemma await_entry_good h srcs proms live k e :
  async_inv N h srcs proms live -> In k live ->
  async_good N h [EAwait k (Ret (PEntry e)); EInsert (mkItem (PEntry e) k);
                EPopAsync k].
Proof.
  intros I K.
  destruct (async_inv_live I K) as (_ & _ & E).
  assert (U : unraised h) by apply I. split.
  - split_events.
    + eapply async_inv_await_ok; eauto.
    + apply async_ok_quiet; auto; try discriminate. unraised_tac.
    + apply async_ok_popasync; [unraised_tac|].
      rewrite exhausted_app. simpl. now rewrite E.
  - apply refetched_await, refetched_nil.
Qed.

(** One visit of the seeding loop. *)
Lemma async_seed_round_ok h srcs proms les k rest evs r :
  async_inv N h srcs proms (map logSourceIndex les ++ k :: rest) ->
  async_seed_round k (srcs, proms, les) = (evs, r) ->
  async_good N h evs /\
  match r with
  | Continue (srcs', proms', les') =>
      async_inv N (h ++ evs) srcs' proms' (map logSourceIndex les' ++ rest)
  | Break o => o = Aborted /\ ends_in_failure evs
  end.
Proof.
  intros I H.
  assert (K : In k (map logSourceIndex les ++ k :: rest))
    by (apply in_or_app; right; now left).
  destruct (async_inv_live I K) as (G & Lk & _).
  unfold async_seed_round in H.
  destruct (JsMap.get k proms) as [[v|]|] eqn:Eg; [| |congruence].
  - destruct v as [|e]; simpl in H.
    + inversion H; subst. split; [eapply await_false_good; eauto|].
      apply async_inv_await_false.
      eapply async_inv_perm; [|exact I].
      apply Permutation_sym, Permutation_middle.
    + destruct (pop_at_some k srcs Lk) as (s & _ & P).
      rewrite P in H. inversion H; subst.
      split; [eapply await_entry_good; eauto|].
      rewrite map_app, <- app_assoc. simpl.
      eapply async_inv_await_entry; eauto.
  - inversion H; subst. split; [eapply await_raise_good; eauto|].
    split; auto. now apply (ends_in_failure_last []).
Qed.

Lemma async_seed_cons k rest st :
  async_seed (k :: rest) st =
  match async_seed_round k st with
  | (evs, Break o) => (o, evs, st)
  | (evs, Continue st') =>
      let '(o, tr, st'') := async_seed rest st' in (o, evs ++ tr, st'')
  end.
Proof. reflexivity. Qed.

(** The seeding loop. *)
Lemma async_seed_ok todo : forall h srcs proms les o tr srcs' proms' les',
    async_inv N h srcs proms (map logSourceIndex les ++ todo) ->
    async_seed todo (srcs, proms, les) = (o, tr, (srcs', proms', les')) ->
    async_good N h tr /\
    ((o = Completed /\
      async_inv N (h ++ tr) srcs' proms' (map logSourceIndex les')) \/
     (o = Aborted /\ ends_in_failure tr)).
Proof.
  induction todo as [|k rest IH]; intros h srcs proms les o tr srcs' proms'
                                         les' I H.
  - simpl in H. inversion H; subst. split; [apply async_good_nil|]. left.
    rewrite !app_nil_r in *. auto.
  - rewrite async_seed_cons in H.
    destruct (async_seed_round k (srcs, proms, les)) as [evs r] eqn:R.
    destruct (async_seed_round_ok _ _ _ _ _ _ _ _ I R) as [G C].
    destruct r as [[[srcs1 proms1] les1]|o1].
    + destruct (async_seed rest (srcs1, proms1, les1)) as [[o2 tr2] st2] eqn:S.
      inversion H; subst.
      destruct (IH _ _ _ _ _ _ _ _ _ C S) as [G2 C2].
      split; [now apply async_good_app|].
      rewrite app_assoc. destruct C2 as [C2|[C2 E2]]; auto.
      right. split; auto. now apply ends_in_failure_app.
    + inversion H; subst. auto.
Qed.

Lemma async_cond_items (st : async_state) :
  async_cond st = negb (length (pq_items (snd st)) =? 0).
Proof. unfold async_cond. now rewrite pq_length_items. Qed.

(** One round of the [while] loop. *)
Lemma async_round_ok h srcs proms q evs r :
  async_inv N h srcs proms (map logSourceIndex (pq_items q)) ->
  async_cond (srcs, proms, q) = true ->
  async_round (srcs, proms, q) = (evs, r) ->
  async_good N h evs /\
  match r with
  | Continue (srcs', proms', q') =>
      async_inv N (h ++ evs) srcs' proms'
                (map logSourceIndex (pq_items q'))
  | Break o => o = Aborted /\ ends_in_failure evs
  end.
Proof.
  intros I C H.
  unfold async_cond in C; simpl in C. apply negb_true_iff in C.
  destruct (pq_pop_nonempty C) as (it & q1 & P & Hp).
  unfold async_round in H. rewrite P in H.
  set (k := logSourceIndex it) in *.
  set (live := map logSourceIndex (pq_items q1)).
  assert (I0 : async_inv N h srcs proms (k :: live))
    by (eapply async_inv_perm; [|exact I];
        apply (Permutation_map logSourceIndex Hp)).
  pose proof (async_inv_print (logEntry it) I0) as I1.
  assert (K : In k (k :: live)) by now left.
  destruct (async_inv_live I1 K) as (G & Lk & _).
  assert (Gp : async_good N h [EPrint (logEntry it)]).
  { split.
    - split_events. apply async_ok_quiet; try discriminate; auto. apply I.
    - apply refetched_quiet; [discriminate | apply refetched_nil]. }
  destruct (JsMap.get k proms) as [[v|]|] eqn:Eg; [| |congruence].
  - destruct v as [|e]; simpl in H.
    + inversion H; subst.
      split.
      * apply (async_good_app h [EPrint (logEntry it)]); auto.
        eapply await_false_good; eauto.
      * change (h ++ [EPrint (logEntry it); EAwait k (Ret PFalse)])
          with (h ++ [EPrint (logEntry it)] ++ [EAwait k (Ret PFalse)]).
        rewrite app_assoc. now apply async_inv_await_false.
    + destruct (pop_at_some k srcs Lk) as (s & _ & Pk).
      rewrite Pk in H. inversion H; subst.
      split.
      * apply (async_good_app h [EPrint (logEntry it)]); auto.
        eapply await_entry_good; eauto.
      * match goal with
        | |- async_inv _ (h ++ ?x :: ?l) _ _ _ =>
            change (h ++ x :: l) with (h ++ [x] ++ l)
        end.
        rewrite app_assoc.
        eapply async_inv_perm;
          [|apply (async_inv_await_entry e (mkItem (PEntry e) k) I1 K Pk)].
        apply Permutation_sym.
        apply (Permutation_map logSourceIndex
                 (pq_push_items _ (mkItem (PEntry e) k) q1)).
  - inversion H; subst. split.
    + apply (async_good_app h [EPrint (logEntry it)]); auto.
      eapply await_raise_good; eauto.
    + split; auto. now apply (ends_in_failure_last [EPrint (logEntry it)]).
Qed.

End AsyncRounds.

(** *** The first [popAsync] on every source *)

Lemma async_reduce_spec todo : forall index m srcs' m' tr,
    async_reduce todo index m = (srcs', m', tr) ->
    srcs' = map (fun s => snd (pop s)) todo /\
    tr = map EPopAsync (seq index (length todo)) /\
    (forall i,
        JsMap.get i m' =
        if (index <=? i) && (i <? index + length todo)
        then option_map (fun s => fst (pop s)) (nth_error todo (i - index))
        else JsMap.get i m) /\
    (Forall (fun k => k < index) (JsMap.keys m) ->
     JsMap.keys m' = JsMap.keys m ++ seq index (length todo)).
Proof.
  induction todo as [|s todo IH]; intros index m srcs' m' tr H; simpl in H.
  - inversion H; subst. simpl. repeat split; auto.
    + intros i. replace (i <? index + 0) with (i <? index)
        by (f_equal; lia).
      destruct (index <=? i) eqn:E1, (i <? index) eqn:E2; simpl; auto.
      apply Nat.leb_le in E1. apply Nat.ltb_lt in E2. lia.
    + intros _. now rewrite app_nil_r.
  - destruct (pop s) as [p s'] eqn:Ep.
    destruct (async_reduce todo (S index) (JsMap.set index p m))
      as [[srcs1 m1] tr1] eqn:E.
    inversion H; subst.
    destruct (IH _ _ _ _ _ E) as (H1 & H2 & H3 & H4).
    subst. simpl. rewrite Ep. simpl. repeat split; auto.
    + intros i. rewrite H3.
      destruct (Nat.eq_dec i index) as [->|Ne].
      * replace (S index <=? index) with false
          by (symmetry; apply Nat.leb_gt; lia).
        rewrite Nat.leb_refl, Nat.sub_diag. simpl.
        replace (index <? index + S (length todo)) with true
          by (symmetry; apply Nat.ltb_lt; lia).
        rewrite JsMapFacts.get_set_eq, Ep. reflexivity.
      * rewrite JsMapFacts.get_set_ne by auto.
        replace (i <? S index + length todo)
          with (i <? index + S (length todo)) by (f_equal; lia).
        destruct (index <=? i) eqn:E1.
        -- apply Nat.leb_le in E1.
           replace (S index <=? i) with true
             by (symmetry; apply Nat.leb_le; lia).
           replace (i - index) with (S (i - S index)) by lia.
           reflexivity.
        -- apply Nat.leb_gt in E1.
           replace (S index <=? i) with false
             by (symmetry; apply Nat.leb_gt; lia).
           reflexivity.
    + intros F.
      assert (Nk : ~ In index (JsMap.keys m)).
      { intros I. rewrite Forall_forall in F. apply F in I. lia. }
      rewrite H4.
      * rewrite JsMapFacts.keys_set_new by auto.
        rewrite <- app_assoc. reflexivity.
      * rewrite JsMapFacts.keys_set_new by auto.
        apply Forall_app; split.
        -- eapply Forall_impl; [|exact F]. simpl; intros; lia.
        -- repeat constructor.
Qed.

Lemma calls_minus_awaits_popasync i n : forall a,
    calls_minus_awaits i (map EPopAsync (seq a n))
    = if (a <=? i) && (i <? a + n) then 1%Z else 0%Z.
Proof.
  induction n as [|n IH]; intros a; simpl.
  - replace (i <? a + 0) with (i <? a) by (f_equal; lia).
    destruct (a <=? i) eqn:E1, (i <? a) eqn:E2; simpl; auto.
    apply Nat.leb_le in E1. apply Nat.ltb_lt in E2. lia.
  - rewrite IH.
    destruct (i =? a) eqn:E.
    + apply Nat.eqb_eq in E; subst.
      replace (S a <=? a) with false by (symmetry; apply Nat.leb_gt; lia).
      rewrite Nat.leb_refl.
      replace (a <? a + S n) with true by (symmetry; apply Nat.ltb_lt; lia).
      reflexivity.
    + apply Nat.eqb_neq in E.
      replace (i <? S a + n) with (i <? a + S n) by (f_equal; lia).
      destruct (a <=? i) eqn:E1.
      * apply Nat.leb_le in E1.
        replace (S a <=? i) with true by (symmetry; apply Nat.leb_le; lia).
        reflexivity.
      * apply Nat.leb_gt in E1.
        replace (S a <=? i) with false by (symmetry; apply Nat.leb_gt; lia).
        reflexivity.
Qed.

Lemma exhausted_popasync i l : exhausted i (map EPopAsync l) = false.
Proof. induction l; simpl; auto. Qed.

Lemma unraised_popasync l : unraised (map EPopAsync l).
Proof. induction l; simpl; constructor; auto. Qed.

Lemma async_good_popasync N l : forall h,
    unraised h -> (forall j, exhausted j h = false) ->
    async_good N h (map EPopAsync l).
Proof.
  induction l as [|k l IH]; intros h U E; simpl.
  - apply async_good_nil.
  - destruct (IH (h ++ [EPopAsync k])) as [G1 G2].
    + unraised_tac.
    + intros j. rewrite exhausted_app. simpl. now rewrite E.
    + split.
      * apply each_split_cons; auto. apply async_ok_popasync; auto.
      * apply refetched_quiet; [discriminate | auto].
Qed.

Lemma async_reduce_inv logSources srcs0 m0 tr0 :
  async_reduce logSources 0 JsMap.empty = (srcs0, m0, tr0) ->
  let N := length logSources in
  async_inv N tr0 srcs0 m0 (seq 0 N) /\
  async_good N [] tr0 /\
  JsMap.keys m0 = seq 0 N.
Proof.
  intros H N. destruct (async_reduce_spec _ _ _ _ _ _ H) as (H1 & H2 & H3 & H4).
  fold N in H2, H3, H4. subst srcs0 tr0.
  split; [|split].
  - split; [|split; [|split]].
    + apply unraised_popasync.
    + apply length_map.
    + apply seq_NoDup.
    + intros i. unfold slot.
      rewrite calls_minus_awaits_popasync, exhausted_popasync, H3, in_seq.
      simpl. destruct (i <? N) eqn:E.
      * apply Nat.ltb_lt in E. left. repeat split; auto; try lia.
        rewrite Nat.sub_0_r.
        destruct (nth_error logSources i) eqn:En; simpl; [discriminate|].
        apply nth_error_None in En. fold N in En. lia.
      * apply Nat.ltb_ge in E. right. repeat split; auto; lia.
  - apply async_good_popasync; [constructor | reflexivity].
  - apply H4. constructor.
Qed.

(** *** Every run of the pipelined engine *)

Section AsyncRun.

Context {PQ : PriorityQueue item}.

Lemma async_loop_ok N fuel h srcs proms q o tr srcs' proms' q' :
  async_inv N h srcs proms (map logSourceIndex (pq_items q)) ->
  while async_cond async_round fuel (srcs, proms, q)
  = (o, tr, (srcs', proms', q')) ->
  async_good N h tr /\
  ((o = Completed /\ unraised (h ++ tr) /\ proms' = JsMap.empty) \/
   (o = OutOfFuel /\ unraised (h ++ tr)) \/
   (o = Aborted /\ ends_in_failure tr)).
Proof.
  intros I W.
  apply (while_inv async_cond async_round
           (fun h (st : async_state) =>
              let '(srcs, proms, q) := st in
              async_inv N h srcs proms (map logSourceIndex (pq_items q)))
           (async_good N)
           (fun o evs => o = Aborted /\ ends_in_failure evs))
    with (h := h) in W; auto.
  - destruct W as [G [(-> & I' & C)|[(-> & I' & C)|B]]]; split; auto.
    + left. split; auto. split; [apply I'|].
      rewrite async_cond_items in C. simpl in C.
      apply negb_false_iff, Nat.eqb_eq, length_zero_iff_nil in C.
      rewrite C in I'. simpl in I'.
      apply JsMapFacts.get_none_all. intros k.
      destruct (JsMap.get k proms') eqn:E; auto.
      exfalso. apply (async_inv_tight (k := k) I'). congruence.
    + right; left. split; auto. apply I'.
  - apply async_good_nil.
  - apply async_good_app.
  - intros o0 a b [? ?]. split; auto. now apply ends_in_failure_app.
  - intros h0 [[srcs0 proms0] q0] evs r I0 C0 R0.
    destruct (async_round_ok N _ _ _ _ _ _ I0 C0 R0) as [G B].
    split; auto.
Qed.

Lemma async_run_facts fuel logSources o tr m :
  async_sorted_merge fuel logSources = (o, tr, m) ->
  exists body,
    async_good (length logSources) [] body /\
    ((o = Completed /\ tr = body ++ [EDone] /\ unraised body /\
      m = JsMap.empty) \/
     (o = OutOfFuel /\ tr = body /\ unraised body) \/
     (o = Aborted /\ tr = body /\ ends_in_failure body)).
Proof.
  unfold async_sorted_merge.
  destruct (async_reduce logSources 0 JsMap.empty) as [[srcs0 m0] tr0] eqn:R.
  destruct (async_reduce_inv _ _ _ _ R) as (I0 & G0 & K0).
  set (N := length logSources) in *.
  destruct (async_seed (JsMap.keys m0) (srcs0, m0, []))
    as [[o1 tr1] [[srcs1 m1] les]] eqn:S.
  rewrite K0 in S.
  destruct (async_seed_ok N (seq 0 N) tr0 srcs0 m0 [] _ _ _ _ _ I0 S)
    as [G1 C1].
  assert (G01 : async_good N [] (tr0 ++ tr1))
    by (apply async_good_app; auto).
  destruct C1 as [[-> I1] | [-> F1]].
  - destruct (while async_cond async_round fuel
                    (srcs1, m1, pq_new comparator les))
      as [[o2 tr2] [[srcs2 m2] q2]] eqn:W.
    assert (I2 : async_inv N (tr0 ++ tr1) srcs1 m1
                   (map logSourceIndex (pq_items (pq_new comparator les)))).
    { eapply async_inv_perm; [|exact I1].
      apply Permutation_sym, (Permutation_map logSourceIndex).
      apply pq_new_items. }
    destruct (async_loop_ok N fuel _ _ _ _ _ _ _ _ _ I2 W) as [G2 C2].
    assert (G : async_good N [] (tr0 ++ tr1 ++ tr2)).
    { rewrite app_assoc. apply async_good_app; auto. }
    rewrite <- app_assoc in C2.
    intros H. exists (tr0 ++ tr1 ++ tr2). split; auto.
    destruct C2 as [(-> & U & ->) | [(-> & U) | [-> F2]]]; inversion H; subst.
    + left. rewrite <- !app_assoc. auto.
    + right; left. auto.
    + right; right. repeat split; auto.
      now apply ends_in_failure_app, ends_in_failure_app.
  - intros H. inversion H; subst. exists (tr0 ++ tr1). split; auto.
    right; right. repeat split; auto. now apply ends_in_failure_app.
Qed.

End AsyncRun.

(** ** How a run ends *)

Lemma split_before_last {A} (x : A) ev post : forall pre body,
    body ++ [x] = pre ++ ev :: post -> ev <> x ->
    exists post', body = pre ++ ev :: post' /\ post = post' ++ [x].
Proof.
  induction pre as [|a pre IH]; intros [|b body] H Ne; simpl in *.
  - inversion H; congruence.
  - inversion H; subst. eauto.
  - inversion H as [[E1 E2]]. destruct pre; discriminate.
  - inversion H as [[E1 E2]]. destruct (IH _ E2 Ne) as (post' & -> & ->).
    eauto.
Qed.

Lemma failure_aborts o tr body pre ev post :
  each_split after_no_failure [] body -> run_shape o tr body ->
  tr = pre ++ ev :: post -> raised ev = true ->
  o = Aborted /\ post = [] /\ ~ In EDone tr.
Proof.
  intros E [(-> & -> & U)|[(-> & -> & U)|(-> & -> & _)]] Eq Hr.
  - exfalso.
    apply split_before_last in Eq as (post' & Eq & _).
    + eapply unraised_no_failure; eauto.
    + intros ->. discriminate.
  - exfalso. eapply unraised_no_failure; eauto.
  - split; auto. eapply failure_is_last; eauto.
Qed.

Lemma done_is_last o tr body :
  each_split after_no_failure [] body -> run_shape o tr body ->
  (o = Completed -> tr = body ++ [EDone]) /\
  (o <> Completed -> tr = body) /\ ~ In EDone body.
Proof.
  intros E S. repeat split.
  - destruct S as [(-> & -> & U)|[(-> & -> & U)|(-> & -> & _)]]; auto;
      discriminate.
  - destruct S as [(-> & -> & U)|[(-> & -> & U)|(-> & -> & _)]]; auto;
      congruence.
  - intros Hin. apply in_split in Hin as (l1 & l2 & E2).
    destruct (E l1 EDone l2 E2) as [_ Nd]. congruence.
Qed.

Section SyncRun.

Context {PQ : PriorityQueue item}.

Lemma sync_reduce_shape todo : forall index les res tr h,
    sync_reduce todo index les = (res, tr) -> unraised h ->
    each_split after_no_failure h tr /\
    (res <> None -> unraised tr) /\
    (res = None -> ends_in_failure tr).
Proof.
  induction todo as [|s todo IH]; simpl; intros index les res tr h H U.
  - inversion H; subst.
    split; [apply each_split_nil | split; [constructor | discriminate]].
  - destruct (pop s) as [[v|] s'].
    + destruct (is_false v).
      * destruct (sync_reduce todo (S index) (les ++ [mkItem v index]))
          as [res' tr'] eqn:E.
        inversion H; subst.
        destruct (IH _ _ _ _ (h ++ [EPop index (Ret v);
                                    EInsert (mkItem v index)]) E)
          as (H1 & H2 & H3); [unraised_tac|].
        split; [|split].
        -- split_events; auto; split; try discriminate; auto. unraised_tac.
        -- intros Hn. repeat constructor. apply H2.
           destruct res'; simpl in *; congruence.
        -- intros Hn.
           apply (ends_in_failure_app [EPop index (Ret v);
                                       EInsert (mkItem v index)]).
           apply H3. destruct res'; simpl in *; congruence.
      * destruct (sync_reduce todo (S index) les) as [res' tr'] eqn:E.
        inversion H; subst.
        destruct (IH _ _ _ _ (h ++ [EPop index (Ret v)]) E)
          as (H1 & H2 & H3); [unraised_tac|].
        split; [|split].
        -- split_events; auto; split; try discriminate; auto.
        -- intros Hn. repeat constructor. apply H2.
           destruct res'; simpl in *; congruence.
        -- intros Hn. apply (ends_in_failure_app [EPop index (Ret v)]).
           apply H3. destruct res'; simpl in *; congruence.
    + inversion H; subst. split; [|split]; [|congruence|].
      * split_events. split; [auto | discriminate].
      * intros _. now apply (ends_in_failure_last []).
Qed.

(** The indices recorded by the [reduce] are indices of sources. *)
Lemma sync_reduce_range todo : forall index les srcs' les' tr bound,
    sync_reduce todo index les = (Some (srcs', les'), tr) ->
    index + length todo <= bound ->
    Forall (fun it => logSourceIndex it < bound) les ->
    length srcs' = length todo /\
    Forall (fun it => logSourceIndex it < bound) les'.
Proof.
  induction todo as [|s todo IH]; simpl; intros index les srcs' les' tr bound
                                               H B F.
  - inversion H; subst. auto.
  - destruct (pop s) as [[v|] s']; [|discriminate].
    destruct (is_false v).
    + destruct (sync_reduce todo (S index) (les ++ [mkItem v index]))
        as [[[srcs1 les1]|] tr1] eqn:E; inversion H; subst.
      destruct (IH _ _ _ _ _ bound E) as [L1 F1]; [lia| |].
      * apply Forall_app; split; auto. repeat constructor. simpl. lia.
      * simpl. split; [lia | auto].
    + destruct (sync_reduce todo (S index) les)
        as [[[srcs1 les1]|] tr1] eqn:E; inversion H; subst.
      destruct (IH _ _ _ _ _ bound E) as [L1 F1]; [lia|auto|].
      simpl. split; [lia | auto].
Qed.

(** The invariant of the loop of the blocking engine: no pull has failed,
    and the items of the queue carry indices of sources. *)
Lemma sync_round_shape h st evs r :
  unraised h /\
  Forall (fun it => logSourceIndex it < length (fst st)) (pq_items (snd st)) ->
  sync_cond st = true ->
  sync_round st = (evs, r) ->
  each_split after_no_failure h evs /\
  match r with
  | Continue st' =>
      unraised (h ++ evs) /\
      Forall (fun it => logSourceIndex it < length (fst st'))
             (pq_items (snd st'))
  | Break o => o = Aborted /\ ends_in_failure evs
  end.
Proof.
  destruct st as [srcs q]; simpl. intros [U R] C H.
  unfold sync_cond in C; simpl in C. apply negb_true_iff in C.
  destruct (pq_pop_nonempty C) as (it & q1 & P & Hp).
  rewrite P in H.
  assert (R' : Forall (fun it => logSourceIndex it < length srcs)
                      (it :: pq_items q1))
    by (eapply Permutation_Forall; eauto).
  inversion R' as [|? ? Rit Rq1]; subst.
  destruct (pop_at_some _ _ Rit) as (s & _ & Pk).
  pose proof (pop_at_length _ _ _ _ Pk) as Lk.
  rewrite Pk in H.
  destruct (fst (pop s)) as [v|].
  - destruct (is_false v); inversion H; subst; simpl;
      (split; [split_events; split; try discriminate; unraised_tac|]);
      (split; [unraised_tac|]); rewrite Lk; auto.
    eapply Permutation_Forall; [apply Permutation_sym, pq_push_items|].
    constructor; auto.
  - inversion H; subst. split.
    + split_events; split; try discriminate; unraised_tac.
    + split; auto.
      now apply (ends_in_failure_last [EPrint (logEntry it)]).
Qed.

Lemma sync_run_facts fuel logSources o tr :
  sync_sorted_merge fuel logSources = (o, tr) ->
  exists body,
    each_split after_no_failure [] body /\ run_shape o tr body.
Proof.
  unfold sync_sorted_merge.
  destruct (sync_reduce logSources 0 []) as [res tr0] eqn:R.
  destruct (sync_reduce_shape _ _ _ _ _ [] R) as (E0 & U0 & F0);
    [constructor|].
  destruct res as [[srcs les]|].
  - destruct (sync_reduce_range _ _ _ _ _ _ (length logSources) R)
      as [L0 R0];
      [simpl; lia | constructor |].
    destruct (while sync_cond sync_round fuel (srcs, pq_new comparator les))
      as [[o1 tr1] s1] eqn:W.
    apply (while_inv sync_cond sync_round
             (fun h st =>
                unraised h /\
                Forall (fun it => logSourceIndex it < length (fst st))
                       (pq_items (snd st)))
             (each_split after_no_failure)
             (fun o evs => o = Aborted /\ ends_in_failure evs))
      with (h := tr0) in W.
    + destruct W as [G C]. intros H. exists (tr0 ++ tr1).
      split; [apply each_split_app; auto|].
      destruct C as [(-> & [U _] & _) | [(-> & [U _] & _) | [-> F]]];
        inversion H; subst.
      * left. rewrite <- app_assoc. auto.
      * right; left. auto.
      * right; right. repeat split; auto. now apply ends_in_failure_app.
    + apply each_split_nil.
    + apply each_split_app.
    + intros o0 a b [? ?]. split; auto. now apply ends_in_failure_app.
    + intros h s evs r I C B. eapply sync_round_shape; eauto.
    + split; [apply U0; discriminate|]. simpl. rewrite L0.
      eapply Permutation_Forall; [apply Permutation_sym, pq_new_items|].
      exact R0.
  - intros H; inversion H; subst. eexists. split; [exact E0|].
    right; right; auto.
Qed.

End SyncRun.

Lemma async_run_shape (PQ : PriorityQueue item) fuel logSources :
  let r := async_sorted_merge fuel logSources in
  exists body,
    async_good (length logSources) [] body /\
    run_shape (async_outcome r) (async_trace r) body /\
    (async_outcome r = Completed -> async_promises r = JsMap.empty).
Proof.
  intros r. subst r.
  destruct (async_sorted_merge fuel logSources) as [[o tr] m] eqn:E.
  destruct (async_run_facts _ _ _ _ _ E)
    as (body & G & [(-> & -> & U & ->)|[(-> & -> & U)|(-> & -> & F)]]);
    exists body; unfold run_shape, async_outcome, async_trace,
                 async_promises; simpl; (split; [exact G|]);
    (split; [|intros; congruence || reflexivity]); auto.
Qed.

Lemma async_good_no_failure N h tr :
  async_good N h tr -> each_split after_no_failure h tr.
Proof.
  intros [E _]. eapply each_split_weaken; [|exact E].
  intros ? ? H; apply H.
Qed.

(** ** The pipelined engine: which fetch an await takes *)

Lemma fetches_app i a b : fetches i (a ++ b) = fetches i a + fetches i b.
Proof.
  induction a as [|ev a IH]; simpl; auto.
  destruct ev; auto. rewrite IH. lia.
Qed.

Lemma awaited_app i a b : awaited i (a ++ b) = awaited i a ++ awaited i b.
Proof.
  induction a as [|ev a IH]; simpl; auto.
  destruct ev; auto. destruct (i =? i0); simpl; now rewrite IH.
Qed.

Lemma awaited_popasync i l : awaited i (map EPopAsync l) = [].
Proof. induction l; simpl; auto. Qed.

(** The count of events, from the fetches and the awaits. *)
Lemma calls_minus_awaits_count i tr :
  calls_minus_awaits i tr
  = (Z.of_nat (fetches i tr) - Z.of_nat (length (awaited i tr)))%Z.
Proof.
  induction tr as [|ev tr IH]; simpl; auto.
  destruct ev; auto; destruct (i =? i0); simpl length; lia.
Qed.

Lemma skipn_S_tl {A} k : forall s : list A, skipn (S k) s = tl (skipn k s).
Proof.
  induction k as [|k IH]; intros [|a s]; auto.
  simpl skipn at 2. rewrite <- IH. reflexivity.
Qed.

Lemma pop_skipn s k : pop (skipn k s) = (answer s k, skipn (S k) s).
Proof.
  rewrite skipn_S_tl. unfold answer. destruct (skipn k s); reflexivity.
Qed.

Lemma nth_of_nth_error {A} (l : list A) d : forall i,
    nth i l d = match nth_error l i with Some x => x | None => d end.
Proof. induction l as [|y l IH]; intros [|i]; simpl; auto. Qed.

Lemma nth_update_eq {A} (l : list A) i x d :
  i < length l -> nth i (update i x l) d = x.
Proof.
  intros H. rewrite nth_of_nth_error. now rewrite nth_error_update_eq.
Qed.

Lemma nth_update_ne {A} (l : list A) i j x d :
  i <> j -> nth j (update i x l) d = nth j l d.
Proof.
  intros H. rewrite !nth_of_nth_error. now rewrite nth_error_update_ne.
Qed.

(** An event that is no fetch and no await leaves the counts as they
    are. *)
Lemma tied_inv_ext logSources h h' srcs proms :
  (forall i, fetches i h' = fetches i h /\ awaited i h' = awaited i h) ->
  tied_inv logSources h srcs proms -> tied_inv logSources h' srcs proms.
Proof.
  intros E [L T]. split; auto. intros i.
  destruct (E i) as [-> ->]. apply T.
Qed.

Lemma await_of_latest_ext logSources h h' ev :
  (forall i, fetches i h' = fetches i h /\ awaited i h' = awaited i h) ->
  await_of_latest logSources h ev -> await_of_latest logSources h' ev.
Proof.
  intros E A j r Ev. destruct (E j) as [-> ->]. auto.
Qed.

Lemma tied_await logSources h srcs proms k r :
  tied_inv logSources h srcs proms -> JsMap.get k proms = Some r ->
  await_of_latest logSources h (EAwait k r).
Proof.
  intros [_ T] G j r' E. inversion E; subst.
  destruct (T j) as [_ M]. rewrite G in M. exact M.
Qed.

Lemma no_await_latest logSources h ev :
  (forall j r, ev <> EAwait j r) -> await_of_latest logSources h ev.
Proof. intros N j r E. destruct (N j r E). Qed.

Lemma popasync_latest logSources l : forall h,
    each_split (await_of_latest logSources) h (map EPopAsync l).
Proof.
  induction l as [|k l IH]; intros h; simpl.
  - apply each_split_nil.
  - apply each_split_cons; [|apply IH].
    apply no_await_latest. discriminate.
Qed.

(** After an await that is not followed by a fetch: the promise is
    deleted. *)
Lemma tied_after_delete logSources h srcs proms k r :
  tied_inv logSources h srcs proms -> JsMap.get k proms = Some r ->
  tied_inv logSources (h ++ [EAwait k r]) srcs (JsMap.delete k proms).
Proof.
  intros [L T] G. split; auto. intros i.
  rewrite fetches_app, awaited_app. cbn [fetches awaited].
  destruct (T i) as [Hs M]. rewrite Nat.add_0_r. split; [exact Hs|].
  destruct (Nat.eq_dec k i) as [<- | Ne].
  - rewrite JsMapFacts.get_delete_eq, Nat.eqb_refl, length_app.
    rewrite G in M. cbn [length]. lia.
  - rewrite JsMapFacts.get_delete_ne by auto.
    replace (i =? k) with false by (symmetry; apply Nat.eqb_neq; auto).
    now rewrite app_nil_r.
Qed.

(** After an await that is followed by the insertion of its entry and by
    the next fetch: the promise is replaced. *)
Lemma tied_after_set logSources h srcs proms k r it p srcs' :
  tied_inv logSources h srcs proms -> JsMap.get k proms = Some r ->
  pop_at k srcs = Some (p, srcs') ->
  tied_inv logSources (h ++ [EAwait k r; EInsert it; EPopAsync k]) srcs'
           (JsMap.set k p proms).
Proof.
  intros [L T] G P. unfold pop_at in P.
  destruct (nth_error srcs k) as [s|] eqn:Ns; [|discriminate].
  assert (Lk : k < length srcs) by (apply nth_error_Some; congruence).
  destruct (T k) as [Sk Mk]. rewrite G in Mk. destruct Mk as [Fk _].
  rewrite nth_of_nth_error, Ns in Sk. subst s.
  rewrite pop_skipn in P. inversion P; subst; clear P.
  split; [now rewrite length_update|]. intros i.
  rewrite fetches_app, awaited_app. cbn [fetches awaited].
  destruct (T i) as [Hs M].
  destruct (Nat.eq_dec k i) as [<- | Ne].
  - rewrite nth_update_eq by auto.
    rewrite JsMapFacts.get_set_eq, Nat.eqb_refl, length_app. cbn [length].
    replace (fetches k h + (1 + 0)) with (S (fetches k h)) by lia.
    split; [reflexivity|]. split; [lia|].
    f_equal. lia.
  - rewrite nth_update_ne by auto.
    rewrite JsMapFacts.get_set_ne by auto.
    replace (i =? k) with false by (symmetry; apply Nat.eqb_neq; auto).
    rewrite app_nil_r, Nat.add_0_r. split; [exact Hs | exact M].
Qed.

Lemma each_split_prefix (R : list event -> event -> Prop) h a b :
  each_split R h (a ++ b) -> each_split R h a.
Proof.
  intros H pre ev post E. apply (H pre ev (post ++ b)).
  subst a. now rewrite <- app_assoc.
Qed.

(** When every await takes the latest fetch of its source, await number
    [k] on a source has taken fetch number [k]. *)
Lemma latest_in_turn logSources tr :
  each_split (await_of_latest logSources) [] tr ->
  forall i, awaited_in_turn logSources i tr.
Proof.
  induction tr as [|ev tr IH] using rev_ind; intros H i.
  - reflexivity.
  - pose proof (IH (each_split_prefix _ _ _ _ H) i) as Hi.
    unfold awaited_in_turn in *. rewrite awaited_app.
    destruct ev; cbn [awaited]; rewrite ?app_nil_r; auto.
    destruct (i =? i0) eqn:E; rewrite ?app_nil_r; auto.
    apply Nat.eqb_eq in E; subst i0.
    destruct (H tr (EAwait i r) [] eq_refl i r eq_refl) as [_ Er].
    cbn [app] in Er.
    rewrite length_app, Nat.add_1_r, seq_S, map_app. cbn [map Nat.add].
    now rewrite <- Hi, <- Er.
Qed.

Section AsyncTied.

Context {PQ : PriorityQueue item}.

Variable logSources : list Source.

(** The [reduce]: one call per source, each promise in the map. *)
Lemma async_reduce_tied srcs0 m0 tr0 :
  async_reduce logSources 0 JsMap.empty = (srcs0, m0, tr0) ->
  each_split (await_of_latest logSources) [] tr0 /\
  tied_inv logSources tr0 srcs0 m0.
Proof.
  intros H.
  destruct (async_reduce_spec _ _ _ _ _ _ H) as (H1 & H2 & H3 & _).
  subst srcs0 tr0. split; [apply popasync_latest|].
  split; [apply length_map|]. intros i.
  assert (F : fetches i (map EPopAsync (seq 0 (length logSources)))
              = if i <? length logSources then 1 else 0).
  { pose proof (calls_minus_awaits_count
                  i (map EPopAsync (seq 0 (length logSources)))) as C.
    rewrite calls_minus_awaits_popasync, awaited_popasync in C.
    cbn [length Nat.leb andb Nat.add] in C.
    destruct (i <? length logSources); lia. }
  rewrite F, H3, awaited_popasync, Nat.sub_0_r.
  rewrite !nth_of_nth_error, nth_error_map.
  cbn [Nat.leb andb Nat.add length].
  destruct (i <? length logSources) eqn:E.
  - apply Nat.ltb_lt, nth_error_Some in E.
    destruct (nth_error logSources i) as [s|]; [|congruence].
    cbn [option_map]. split.
    + destruct s; reflexivity.
    + split; reflexivity.
  - apply Nat.ltb_ge, nth_error_None in E. rewrite E. cbn [option_map].
    split; reflexivity.
Qed.

(** One turn of the seeding loop. *)
Lemma async_seed_round_tied h srcs proms les k evs r :
  tied_inv logSources h srcs proms ->
  async_seed_round k (srcs, proms, les) = (evs, r) ->
  each_split (await_of_latest logSources) h evs /\
  match r with
  | Continue (srcs', proms', _) => tied_inv logSources (h ++ evs) srcs' proms'
  | Break _ => True
  end.
Proof.
  intros I H. unfold async_seed_round in H.
  destruct (JsMap.get k proms) as [[v|]|] eqn:G.
  - pose proof (tied_await _ _ _ _ _ _ I G) as A.
    destruct (is_false v).
    + inversion H; subst. split; [split_events; auto|].
      now apply tied_after_delete.
    + destruct (pop_at k srcs) as [[p srcs']|] eqn:P; inversion H; subst.
      * split; [|eapply tied_after_set; eassumption].
        split_events; auto; apply no_await_latest; discriminate.
      * split; [|exact Logic.I].
        split_events; auto; apply no_await_latest; discriminate.
  - pose proof (tied_await _ _ _ _ _ _ I G) as A.
    inversion H; subst. split; [split_events; auto | exact Logic.I].
  - inversion H; subst. split; [apply each_split_nil|].
    now rewrite app_nil_r.
Qed.

(** The seeding loop. *)
Lemma async_seed_tied todo : forall h srcs proms les o tr srcs' proms' les',
    tied_inv logSources h srcs proms ->
    async_seed todo (srcs, proms, les) = (o, tr, (srcs', proms', les')) ->
    each_split (await_of_latest logSources) h tr /\
    (o = Completed -> tied_inv logSources (h ++ tr) srcs' proms').
Proof.
  induction todo as [|k rest IH]; intros h srcs proms les o tr srcs' proms'
                                         les' I H.
  - simpl in H. inversion H; subst. split; [apply each_split_nil|].
    intros _. now rewrite app_nil_r.
  - rewrite async_seed_cons in H.
    destruct (async_seed_round k (srcs, proms, les)) as [evs r] eqn:R.
    destruct (async_seed_round_tied _ _ _ _ _ _ _ I R) as [G C].
    destruct r as [[[srcs1 proms1] les1]|o1].
    + destruct (async_seed rest (srcs1, proms1, les1)) as [[o2 tr2] st2] eqn:Sd.
      inversion H; subst.
      destruct (IH _ _ _ _ _ _ _ _ _ C Sd) as [G2 C2].
      split; [now apply each_split_app|].
      rewrite app_assoc. exact C2.
    + inversion H; subst. split; [exact G|].
      (* the seeding loop leaves with an error only *)
      intros ->. exfalso.
      unfold async_seed_round in R.
      destruct (JsMap.get k proms') as [[v|]|]; try discriminate.
      destruct (is_false v); [discriminate|].
      destruct (pop_at k srcs') as [[? ?]|]; discriminate.
Qed.

(** One round of the loop. *)
Lemma async_round_tied h srcs proms q evs r :
  tied_inv logSources h srcs proms ->
  async_round (srcs, proms, q) = (evs, r) ->
  each_split (await_of_latest logSources) h evs /\
  match r with
  | Continue (srcs', proms', _) => tied_inv logSources (h ++ evs) srcs' proms'
  | Break _ => True
  end.
Proof.
  intros I H. unfold async_round in H.
  destruct (pq_pop q) as [[it q1]|].
  - set (k := logSourceIndex it) in *.
    assert (Q : forall i,
               fetches i (h ++ [EPrint (logEntry it)]) = fetches i h /\
               awaited i (h ++ [EPrint (logEntry it)]) = awaited i h).
    { intros i. rewrite fetches_app, awaited_app. simpl.
      now rewrite Nat.add_0_r, app_nil_r. }
    pose proof (tied_inv_ext _ _ _ _ _ Q I) as I1.
    destruct (JsMap.get k proms) as [[v|]|] eqn:G.
    + pose proof (tied_await _ _ _ _ _ _ I1 G) as A.
      destruct (is_false v).
      * inversion H; subst. split.
        -- split_events; auto. apply no_await_latest; discriminate.
        -- change [EPrint (logEntry it); EAwait k (Ret v)]
             with ([EPrint (logEntry it)] ++ [EAwait k (Ret v)]).
           rewrite app_assoc. now apply tied_after_delete.
      * destruct (pop_at k srcs) as [[p srcs']|] eqn:P; inversion H; subst.
        -- split.
           ++ split_events; auto; apply no_await_latest; discriminate.
           ++ change [EPrint (logEntry it); EAwait k (Ret v);
                      EInsert (mkItem v k); EPopAsync k]
                with ([EPrint (logEntry it)]
                        ++ [EAwait k (Ret v); EInsert (mkItem v k);
                            EPopAsync k]).
              rewrite app_assoc. eapply tied_after_set; eassumption.
        -- split; [|exact Logic.I].
           split_events; auto; apply no_await_latest; discriminate.
    + pose proof (tied_await _ _ _ _ _ _ I1 G) as A.
      inversion H; subst. split; [|exact Logic.I].
      split_events; auto. apply no_await_latest; discriminate.
    + inversion H; subst. split; [|exact Logic.I].
      split_events. apply no_await_latest; discriminate.
  - inversion H; subst. split; [apply each_split_nil | exact Logic.I].
Qed.

(** The loop. *)
Lemma async_loop_tied fuel h srcs proms q o tr srcs' proms' q' :
  async_inv (length logSources) h srcs proms
            (map logSourceIndex (pq_items q)) ->
  tied_inv logSources h srcs proms ->
  while async_cond async_round fuel (srcs, proms, q)
  = (o, tr, (srcs', proms', q')) ->
  each_split (await_of_latest logSources) h tr /\
  (o = OutOfFuel ->
   async_inv (length logSources) (h ++ tr) srcs' proms'
             (map logSourceIndex (pq_items q')) /\
   tied_inv logSources (h ++ tr) srcs' proms').
Proof.
  intros I T W.
  apply (while_inv async_cond async_round
           (fun h (st : async_state) =>
              let '(srcs, proms, q) := st in
              async_inv (length logSources) h srcs proms
                        (map logSourceIndex (pq_items q)) /\
              tied_inv logSources h srcs proms)
           (each_split (await_of_latest logSources))
           (fun (o : outcome) (_ : list event) => o = Aborted))
    with (h := h) in W; auto.
  - destruct W as [G C]. split; [exact G|]. intros ->.
    destruct C as [(E & _) | [(_ & I' & _) | B]];
      [discriminate | exact I' | discriminate].
  - apply each_split_nil.
  - apply each_split_app.
  - intros h0 [[srcs0 proms0] q0] evs r [I0 T0] C0 R0.
    destruct (async_round_ok _ _ _ _ _ _ _ I0 C0 R0) as [_ B].
    destruct (async_round_tied _ _ _ _ _ _ T0 R0) as [G B'].
    split; [exact G|].
    destruct r as [[[srcs1 proms1] q1]|o1]; [auto | apply B].
Qed.

(** The whole run: every await takes the latest fetch of its source; and
    when the loop is cut between two rounds, the map holds the promise of
    the latest fetch of each source that has not answered [false], and
    nothing else. *)
Lemma async_run_tied fuel :
  each_split (await_of_latest logSources) []
             (async_trace (async_sorted_merge fuel logSources)) /\
  (async_outcome (async_sorted_merge fuel logSources) = OutOfFuel ->
   forall i, i < length logSources ->
     JsMap.get i (async_promises (async_sorted_merge fuel logSources))
     = if exhausted i (async_trace (async_sorted_merge fuel logSources))
       then None
       else Some (answer (nth i logSources [])
                         (fetches i (async_trace
                                       (async_sorted_merge fuel logSources))
                          - 1))).
Proof.
  unfold async_sorted_merge.
  destruct (async_reduce logSources 0 JsMap.empty) as [[srcs0 m0] tr0] eqn:R.
  destruct (async_reduce_inv _ _ _ _ R) as (I0 & _ & K0).
  destruct (async_reduce_tied _ _ _ R) as [G0 T0].
  set (N := length logSources) in *.
  destruct (async_seed (JsMap.keys m0) (srcs0, m0, []))
    as [[o1 tr1] [[srcs1 m1] les]] eqn:Sd.
  rewrite K0 in Sd.
  destruct (async_seed_ok N (seq 0 N) tr0 srcs0 m0 [] _ _ _ _ _ I0 Sd)
    as [_ C1].
  destruct (async_seed_tied _ _ _ _ _ _ _ _ _ _ T0 Sd) as [G1 T1].
  assert (G01 : each_split (await_of_latest logSources) [] (tr0 ++ tr1))
    by (apply each_split_app; auto).
  destruct C1 as [[-> I1] | [-> _]].
  - specialize (T1 eq_refl).
    destruct (while async_cond async_round fuel
                    (srcs1, m1, pq_new comparator les))
      as [[o2 tr2] [[srcs2 m2] q2]] eqn:W.
    assert (I2 : async_inv N (tr0 ++ tr1) srcs1 m1
                   (map logSourceIndex (pq_items (pq_new comparator les)))).
    { eapply async_inv_perm; [|exact I1].
      apply Permutation_sym, (Permutation_map logSourceIndex).
      apply pq_new_items. }
    destruct (async_loop_tied _ _ _ _ _ _ _ _ _ _ I2 T1 W) as [G2 C2].
    assert (G : each_split (await_of_latest logSources) []
                           (tr0 ++ tr1 ++ tr2)).
    { rewrite app_assoc. apply each_split_app; auto. }
    destruct o2; unfold async_trace, async_outcome, async_promises;
      cbn [fst snd]; (split; [|try discriminate]); try exact G.
    + replace (tr0 ++ tr1 ++ tr2 ++ [EDone])
        with ((tr0 ++ tr1 ++ tr2) ++ [EDone])
        by (now rewrite <- !app_assoc).
      apply each_split_app; [exact G|].
      apply each_split_cons; [|apply each_split_nil].
      apply no_await_latest. discriminate.
    + intros _ i Hi.
      destruct (C2 eq_refl) as [(_ & _ & _ & Sl) [_ T]].
      rewrite <- app_assoc in Sl, T.
      destruct (T i) as [_ M].
      destruct (Sl i) as [(_ & Gi & _ & _ & E) | (_ & Gi & _ & E)].
      * rewrite E.
        destruct (JsMap.get i m2) as [p|]; [|congruence].
        destruct M as [F ->]. rewrite F. f_equal. f_equal. lia.
      * now rewrite (E Hi).
  - unfold async_trace, async_outcome, async_promises. cbn [fst snd].
    split; [exact G01 | discriminate].
Qed.

End AsyncTied.

(** ** The pipelined engine: promises, fetches in flight, failures *)

(** C10.  When the pipelined engine reaches [printer.done()], the map
    [logEntryPromises] is empty: every index was deleted when its source
    answered [false], so no fetch is left in flight. *)
Theorem async_no_promise_left_at_done :
  forall (PQ : PriorityQueue item) (fuel : nat) (logSources : list Source),
    async_outcome (async_sorted_merge fuel logSources) = Completed ->
    async_promises (async_sorted_merge fuel logSources) = JsMap.empty.
Proof.
  intros PQ fuel logSources H.
  destruct (async_run_shape PQ fuel logSources) as (body & _ & _ & E).
  auto.
Qed.

(** Scenario 3 runs to completion, with an empty map. *)
Lemma async_no_promise_left_at_done_witness :
  async_outcome (async_sorted_merge (PQ := list_queue) 5 scenario3)
  = Completed /\
  async_promises (async_sorted_merge (PQ := list_queue) 5 scenario3)
  = JsMap.empty.
Proof.
  split; [reflexivity|].
  apply (async_no_promise_left_at_done list_queue 5 scenario3).
  reflexivity.
Defined.

(** C6.  In the pipelined engine every [await] takes the promise of the
    latest fetch on its source, and that fetch is the only one of the source
    that has not been awaited.  At every [await], on every source the awaits
    so far have taken the fetches one by one, in order, and the source has
    been fetched once more than awaited as long as it has not answered
    [false] (and as often once it has): one fetch in flight, never none and
    never two.  When the awaited promise gives an entry, the next
    [popAsync] on that source follows at once, right after the entry is put
    into the array or the queue.  And when the loop is cut between two
    rounds, the map holds for each source that has not answered [false] the
    promise of its latest fetch, and no promise for the others. *)
Theorem async_one_fetch_in_flight :
  forall (PQ : PriorityQueue item) (fuel : nat) (logSources : list Source),
    (forall (pre post : list event) (j : nat) (r : settled),
        async_trace (async_sorted_merge fuel logSources)
        = pre ++ EAwait j r :: post ->
        (forall i, i < length logSources ->
           awaited_in_turn logSources i pre /\
           fetches i pre
           = length (awaited i pre) + (if exhausted i pre then 0 else 1)) /\
        (fetches j pre = S (length (awaited j pre)) /\
         r = answer (nth j logSources []) (length (awaited j pre))) /\
        (forall e, r = Ret (PEntry e) ->
           exists post',
             post = EInsert (mkItem (PEntry e) j) :: EPopAsync j :: post')) /\
    (async_outcome (async_sorted_merge fuel logSources) = OutOfFuel ->
     forall i, i < length logSources ->
       JsMap.get i (async_promises (async_sorted_merge fuel logSources))
       = if exhausted i (async_trace (async_sorted_merge fuel logSources))
         then None
         else Some (answer (nth i logSources [])
                           (fetches i (async_trace
                                         (async_sorted_merge fuel logSources))
                            - 1))).
Proof.
  intros PQ fuel logSources.
  destruct (@async_run_tied PQ logSources fuel) as [T M].
  split; [|exact M].
  intros pre post j r H.
  destruct (async_run_shape PQ fuel logSources) as (body & [G1 G2] & S & _).
  assert (B : exists post', body = pre ++ EAwait j r :: post' /\
                            exists tl, post = post' ++ tl).
  { destruct S as [(_ & E & _)|[(_ & E & _)|(_ & E & _)]]; rewrite E in H.
    - apply split_before_last in H as (post' & -> & ->); [|discriminate].
      eauto.
    - exists post. split; auto. exists []. now rewrite app_nil_r.
    - exists post. split; auto. exists []. now rewrite app_nil_r. }
  destruct B as (post' & B & tl & ->).
  rewrite H in T. split; [|split].
  - intros i Hi. split.
    + apply latest_in_turn. eapply each_split_prefix. exact T.
    + destruct (G1 pre (EAwait j r) post' B) as (_ & _ & A).
      simpl in A. specialize (A j r eq_refl i Hi).
      rewrite calls_minus_awaits_count in A.
      destruct (exhausted i pre); lia.
  - exact (T pre (EAwait j r) (post' ++ tl) eq_refl j r eq_refl).
  - intros e ->. destruct (G2 pre j e post' B) as (post'' & ->).
    eexists. simpl. reflexivity.
Qed.

(** In scenario 3, at the await that gives the entry at 3, and after two
    rounds of the loop. *)
Lemma async_one_fetch_in_flight_witness :
  let tr := async_trace (async_sorted_merge (PQ := list_queue) 5 scenario3) in
  let pre := firstn 9 tr in
  let post := skipn 10 tr in
  tr = pre ++ EAwait 0 (Ret (PEntry (entry_at 3))) :: post /\
  (fetches 0 pre = S (length (awaited 0 pre)) /\
   Ret (PEntry (entry_at 3))
   = answer (nth 0 scenario3 []) (length (awaited 0 pre))) /\
  async_outcome (async_sorted_merge (PQ := list_queue) 2 scenario3)
  = OutOfFuel /\
  JsMap.get 0 (async_promises
                 (async_sorted_merge (PQ := list_queue) 2 scenario3))
  = Some (Ret (PEntry (entry_at 5))).
Proof.
  assert (H : async_trace (async_sorted_merge (PQ := list_queue) 5 scenario3)
              = firstn 9 (async_trace
                            (async_sorted_merge (PQ := list_queue) 5
                                                scenario3))
                  ++ EAwait 0 (Ret (PEntry (entry_at 3)))
                  :: skipn 10 (async_trace
                                 (async_sorted_merge (PQ := list_queue) 5
                                                     scenario3)))
    by reflexivity.
  assert (O : async_outcome (async_sorted_merge (PQ := list_queue) 2
                                                scenario3) = OutOfFuel)
    by reflexivity.
  split; [exact H|]. split; [|split; [exact O|]].
  - exact (proj1 (proj2 (proj1 (async_one_fetch_in_flight
                                  list_queue 5 scenario3) _ _ _ _ H))).
  - exact (proj2 (async_one_fetch_in_flight list_queue 2 scenario3) O 0
                 (Nat.lt_0_succ 1)).
Defined.

(** C7.  When a pull fails (a [pop] throws in the blocking engine, an
    awaited [popAsync] promise rejects in the pipelined engine), the run
    ends there with the error: the failed pull is the last event of the
    trace, so nothing is retried or printed after it, and
    [printer.done()] is never called. *)
Theorem pull_failure_aborts :
  forall (PQ : PriorityQueue item) (fuel : nat) (logSources : list Source)
         (pre post : list event) (ev : event),
    raised ev = true ->
    (snd (sync_sorted_merge fuel logSources) = pre ++ ev :: post ->
     fst (sync_sorted_merge fuel logSources) = Aborted /\
     post = [] /\
     ~ In EDone (snd (sync_sorted_merge fuel logSources))) /\
    (async_trace (async_sorted_merge fuel logSources) = pre ++ ev :: post ->
     async_outcome (async_sorted_merge fuel logSources) = Aborted /\
     post = [] /\
     ~ In EDone (async_trace (async_sorted_merge fuel logSources))).
Proof.
  intros PQ fuel logSources pre post ev Hr. split; intros H.
  - destruct (sync_sorted_merge fuel logSources) as [o tr] eqn:E.
    destruct (sync_run_facts _ _ _ _ E) as (body & G & S).
    simpl in *. eapply failure_aborts; eauto.
  - destruct (async_run_shape PQ fuel logSources) as (body & G & S & _).
    eapply failure_aborts; eauto.
    eapply async_good_no_failure; eauto.
Qed.

(** A source that answers [false] and then throws, in the blocking engine;
    scenario 4, in the pipelined engine. *)
Lemma pull_failure_aborts_witness :
  (let r := sync_sorted_merge (PQ := list_queue) 3 scenario4_sync in
   snd r = [EPop 0 (Ret PFalse); EInsert (drained_item 0); EPrint PFalse]
             ++ EPop 0 Raise :: [] /\
   fst r = Aborted /\ ~ In EDone (snd r)) /\
  (let r := async_sorted_merge (PQ := list_queue) 3 scenario4 in
   async_trace r
   = [EPopAsync 0; EAwait 0 (Ret (PEntry (entry_at 1)));
      EInsert (mkItem (PEntry (entry_at 1)) 0); EPopAsync 0;
      EPrint (PEntry (entry_at 1))]
       ++ EAwait 0 Raise :: [] /\
   async_outcome r = Aborted /\ ~ In EDone (async_trace r)).
Proof.
  split.
  - split; [reflexivity|].
    destruct (proj1 (pull_failure_aborts list_queue 3 scenario4_sync
                       [EPop 0 (Ret PFalse); EInsert (drained_item 0);
                        EPrint PFalse] [] (EPop 0 Raise) eq_refl) eq_refl)
      as (H1 & _ & H2).
    split; assumption.
  - split; [reflexivity|].
    destruct (proj2 (pull_failure_aborts list_queue 3 scenario4
                       [EPopAsync 0; EAwait 0 (Ret (PEntry (entry_at 1)));
                        EInsert (mkItem (PEntry (entry_at 1)) 0);
                        EPopAsync 0; EPrint (PEntry (entry_at 1))]
                       [] (EAwait 0 Raise) eq_refl) eq_refl)
      as (H1 & _ & H2).
    split; assumption.
Defined.


(** *** The blocking engine against its contract *)

Lemma drained_rounds_no_done i n :
  ~ In EDone (concat (repeat (drained_round i) n)).
Proof.
  induction n as [|n IH]; simpl; [tauto|].
  intros [H|[H|[H|H]]]; try discriminate. auto.
Qed.

(** C4, on scenario 2 (one source, drained at its first pull): the loop of
    the blocking engine never ends.  Whatever the number of rounds it is
    given, it is still running, and [printer.done()] has not been called. *)
Theorem sync_never_completes_on_drained_source :
  forall (PQ : PriorityQueue item) (fuel : nat),
    fst (sync_sorted_merge fuel scenario2) = OutOfFuel /\
    ~ In EDone (snd (sync_sorted_merge fuel scenario2)).
Proof.
  intros PQ fuel. unfold scenario2. rewrite sync_drained_source. simpl.
  split; auto.
  intros [H|[H|H]]; try discriminate.
  eapply drained_rounds_no_done; eauto.
Qed.

(** C5, on scenario 2: the blocking engine pops the source again after the
    source has answered [false], once in every round. *)
Theorem sync_pops_drained_source_again :
  forall (PQ : PriorityQueue item) (fuel : nat),
  exists pre post,
    snd (sync_sorted_merge (S fuel) scenario2)
    = pre ++ EPop 0 (Ret PFalse) :: post /\
    exhausted 0 pre = true.
Proof.
  intros PQ fuel. unfold scenario2. rewrite sync_drained_source.
  exists [EPop 0 (Ret PFalse); EInsert (drained_item 0); EPrint PFalse].
  eexists. simpl. split; reflexivity.
Qed.

(** C1, on scenario 1 (entries at 10, 5 and 20): the blocking engine pops
    each source once, prints nothing and calls [printer.done()]; the three
    entries are dropped. *)
Theorem sync_drops_every_entry :
  forall (PQ : PriorityQueue item) (fuel : nat),
    sync_sorted_merge fuel scenario1
    = (Completed,
       [EPop 0 (Ret (PEntry (entry_at 10)));
        EPop 1 (Ret (PEntry (entry_at 5)));
        EPop 2 (Ret (PEntry (entry_at 20)));
        EDone]).
Proof.
  intros PQ fuel.
  pose proof (sync_loop_empty fuel [[]; []; []]) as W.
  unfold sync_sorted_merge. simpl.
  match type of W with
  | ?lhs = _ =>
      match goal with
      | |- context [while ?c ?b ?f ?s] => change (while c b f s) with lhs
      end
  end.
  rewrite W. reflexivity.
Qed.

(** X8.  The pipelined engine never calls a source that has answered
    [false]. *)
Lemma async_exhaustion_is_final (PQ : PriorityQueue item) fuel logSources
      pre ev post i :
  async_trace (async_sorted_merge fuel logSources) = pre ++ ev :: post ->
  pulls i ev = true -> exhausted i pre = false.
Proof.
  intros H Hp.
  destruct (async_run_shape PQ fuel logSources) as (body & [G1 G2] & S & _).
  assert (B : exists post', body = pre ++ ev :: post').
  { destruct S as [(_ & E & _)|[(_ & E & _)|(_ & E & _)]]; rewrite E in H;
      eauto.
    apply split_before_last in H as (post' & -> & ->); eauto.
    intros ->; discriminate. }
  destruct B as (post' & B).
  destruct (G1 pre ev post' B) as (_ & A & _). simpl in A. auto.
Qed.

(** ** The pipelined engine: what is printed *)

Set Implicit Arguments.

Lemma entries_pop s : entries (fst (pop s) :: snd (pop s)) = entries s.
Proof. destruct s as [|[[|e]|] s]; reflexivity. Qed.

Lemma pop_no_raise s :
  no_raise s -> (exists v, fst (pop s) = Ret v) /\ no_raise (snd (pop s)).
Proof.
  destruct s as [|r s]; simpl; intros H.
  - split; eauto.
  - inversion H; subst. split; auto. destruct r; [eauto | congruence].
Qed.

Lemma printed_app a b : printed (a ++ b) = printed a ++ printed b.
Proof.
  induction a as [|[] a IH]; simpl; auto. now rewrite IH.
Qed.

Lemma flat_map_agree {A B} (f g : A -> list B) l :
  (forall x, In x l -> f x = g x) -> flat_map f l = flat_map g l.
Proof.
  induction l as [|x l IH]; simpl; intros H; auto.
  rewrite H, IH; auto.
Qed.

Lemma Forall_update {A} (P : A -> Prop) l i x :
  Forall P l -> P x -> Forall P (update i x l).
Proof.
  revert i; induction l as [|y l IH]; intros [|i] H Hx; simpl; auto;
    inversion H; subst; constructor; auto.
Qed.

Lemma rest_of_delete_ne srcs proms k i :
  k <> i -> rest_of srcs (JsMap.delete k proms) i = rest_of srcs proms i.
Proof.
  intros H. unfold rest_of. now rewrite JsMapFacts.get_delete_ne.
Qed.

Lemma rest_of_set_ne srcs proms k i p s' :
  k <> i ->
  rest_of (update k s' srcs) (JsMap.set k p proms) i = rest_of srcs proms i.
Proof.
  intros H. unfold rest_of.
  now rewrite JsMapFacts.get_set_ne, nth_error_update_ne.
Qed.

Lemma rest_of_set_eq srcs proms k p s' :
  k < length srcs ->
  rest_of (update k s' srcs) (JsMap.set k p proms) k = entries (p :: s').
Proof.
  intros H. unfold rest_of.
  now rewrite JsMapFacts.get_set_eq, nth_error_update_eq.
Qed.

Lemma item_pending_delete_ne srcs proms k it :
  k <> logSourceIndex it ->
  item_pending srcs (JsMap.delete k proms) it = item_pending srcs proms it.
Proof.
  intros H. unfold item_pending. now rewrite rest_of_delete_ne.
Qed.

Lemma item_pending_set_ne srcs proms k p s' it :
  k <> logSourceIndex it ->
  item_pending (update k s' srcs) (JsMap.set k p proms) it
  = item_pending srcs proms it.
Proof.
  intros H. unfold item_pending. now rewrite rest_of_set_ne.
Qed.

Lemma item_ready_delete_ne srcs proms k it :
  k <> logSourceIndex it ->
  item_ready srcs proms it -> item_ready srcs (JsMap.delete k proms) it.
Proof.
  intros H (e & v & s & H1 & H2 & H3). exists e, v, s.
  now rewrite JsMapFacts.get_delete_ne.
Qed.

Lemma item_ready_set_ne srcs proms k p s' it :
  k <> logSourceIndex it ->
  item_ready srcs proms it ->
  item_ready (update k s' srcs) (JsMap.set k p proms) it.
Proof.
  intros H (e & v & s & H1 & H2 & H3). exists e, v, s.
  now rewrite JsMapFacts.get_set_ne, nth_error_update_ne.
Qed.

Lemma keyed_by_entries (l : list item) :
  (forall it, In it l -> exists e, logEntry it = PEntry e) ->
  keyed_by item_key comparator l.
Proof.
  intros H a b Ha Hb.
  destruct (H a Ha) as [ea Ea], (H b Hb) as [eb Eb].
  unfold comparator, item_key. rewrite Ea, Eb. simpl. eauto.
Qed.

Lemma content_inv_perm srcs proms items items' :
  Permutation items items' ->
  content_inv srcs proms items -> content_inv srcs proms items'.
Proof.
  intros P (D & R & F). repeat split; auto.
  - eapply Permutation_NoDup; [|exact D]. now apply Permutation_map.
  - intros it I. apply R. eapply Permutation_in; [|exact I].
    now apply Permutation_sym.
Qed.

Lemma sorted_items_perm srcs proms items items' :
  Permutation items items' ->
  sorted_items srcs proms items -> sorted_items srcs proms items'.
Proof.
  intros P S it I. apply S. eapply Permutation_in; [|exact I].
  now apply Permutation_sym.
Qed.

Lemma content_inv_others srcs proms it items :
  content_inv srcs proms (it :: items) ->
  forall it', In it' items -> logSourceIndex it <> logSourceIndex it'.
Proof.
  intros (D & _) it' I E. simpl in D. inversion D as [|? ? N _]; subst.
  apply N. rewrite E. now apply in_map.
Qed.

Lemma by_date_trans a b c : by_date a b -> by_date b c -> by_date a c.
Proof. unfold by_date; lia. Qed.

(** What is pending after the head [it] has been printed lies after it:
    the other items by the order of the queue, their sources and the rest
    of its own source by the order of each source. *)
Lemma pending_after srcs proms e (items : list item) :
  sorted_items srcs proms items ->
  Forall (fun it' => exists e', logEntry it' = PEntry e' /\ by_date e e')
         items ->
  Forall (by_date e) (pending srcs proms items).
Proof.
  intros S F. unfold pending. induction items as [|it items IH]; simpl.
  - constructor.
  - inversion F as [|? ? (e' & E & L) F']; subst.
    apply Forall_app; split.
    + pose proof (S it (or_introl eq_refl)) as St.
      unfold item_pending in *. rewrite E in *.
      apply StronglySorted_inv in St as [_ St].
      constructor; auto.
      eapply Forall_impl; [|exact St].
      intros x Hx. eapply by_date_trans; eauto.
    + apply IH; auto. intros it' I. apply S. now right.
Qed.

(** The awaited promise gives [false]: the source leaves. *)
Lemma await_step_false srcs proms it items e :
  content_inv srcs proms (it :: items) ->
  logEntry it = PEntry e ->
  JsMap.get (logSourceIndex it) proms = Some (Ret PFalse) ->
  content_inv srcs (JsMap.delete (logSourceIndex it) proms) items /\
  pending srcs proms (it :: items)
  = e :: pending srcs (JsMap.delete (logSourceIndex it) proms) items /\
  (sorted_items srcs proms (it :: items) ->
   sorted_items srcs (JsMap.delete (logSourceIndex it) proms) items).
Proof.
  intros C E G. pose proof (content_inv_others C) as O.
  destruct C as (D & R & F). split; [|split].
  - repeat split; auto.
    + now inversion D.
    + intros it' I. apply item_ready_delete_ne; auto. apply R. now right.
  - unfold pending. simpl. unfold item_pending at 1. rewrite E.
    unfold rest_of. rewrite G.
    destruct (nth_error srcs (logSourceIndex it)); simpl; f_equal;
      apply flat_map_agree; intros it' I;
      symmetry; apply item_pending_delete_ne; auto.
  - intros S it' I. rewrite item_pending_delete_ne by auto.
    apply S. now right.
Qed.

(** The awaited promise gives an entry: the entry takes the place of the
    head, and the source is asked again. *)
Lemma await_step_entry srcs proms it items e e' s :
  content_inv srcs proms (it :: items) ->
  logEntry it = PEntry e ->
  JsMap.get (logSourceIndex it) proms = Some (Ret (PEntry e')) ->
  nth_error srcs (logSourceIndex it) = Some s ->
  let k := logSourceIndex it in
  let srcs' := update k (snd (pop s)) srcs in
  let proms' := JsMap.set k (fst (pop s)) proms in
  let nxt := mkItem (PEntry e') k in
  content_inv srcs' proms' (nxt :: items) /\
  pending srcs proms (it :: items) = e :: pending srcs' proms' (nxt :: items) /\
  (sorted_items srcs proms (it :: items) ->
   sorted_items srcs' proms' (nxt :: items) /\ by_date e e').
Proof.
  intros C E G Hs k srcs' proms' nxt.
  pose proof (content_inv_others C) as O.
  destruct C as (D & R & F).
  assert (Lk : k < length srcs)
    by (apply nth_error_Some; unfold k; congruence).
  assert (Ns : no_raise s).
  { rewrite Forall_forall in F. apply F. eapply nth_error_In; eauto. }
  destruct (pop_no_raise Ns) as [[v Ev] Ns'].
  assert (P' : item_pending srcs' proms' nxt = e' :: entries s).
  { unfold item_pending. simpl. unfold srcs', proms'.
    rewrite rest_of_set_eq by auto. now rewrite entries_pop. }
  assert (P : item_pending srcs proms it = e :: e' :: entries s).
  { unfold item_pending. rewrite E. unfold rest_of. fold k.
    unfold k. rewrite G, Hs. reflexivity. }
  split; [|split].
  - repeat split.
    + exact D.
    + intros it' [<-|I].
      * exists e', v, (snd (pop s)). simpl. unfold srcs', proms'.
        rewrite JsMapFacts.get_set_eq, nth_error_update_eq by auto.
        rewrite Ev. auto.
      * apply item_ready_set_ne; [apply O; auto|]. apply R. now right.
    + apply Forall_update; auto.
  - unfold pending. cbn [flat_map]. rewrite P, P'. cbn [app]. do 3 f_equal.
    apply flat_map_agree; intros it' I.
    symmetry; apply item_pending_set_ne; auto.
  - intros S. pose proof (S it (or_introl eq_refl)) as St.
    rewrite P in St. apply StronglySorted_inv in St as [St1 St2].
    split.
    + intros it' [<-|I].
      * now rewrite P'.
      * unfold srcs', proms'. rewrite item_pending_set_ne by (apply O; auto).
        apply S. now right.
    + now inversion St2.
Qed.

Section AsyncContent.

Context {PQ : PriorityQueue item}.

Lemma ready_entries srcs proms (items : list item) :
  (forall it, In it items -> item_ready srcs proms it) ->
  forall it, In it items -> exists e, logEntry it = PEntry e.
Proof.
  intros R it I. destruct (R it I) as (e & _ & _ & E & _). eauto.
Qed.

Lemma least_is_first srcs proms it e (items : list item) :
  logEntry it = PEntry e ->
  (forall it', In it' items -> item_ready srcs proms it') ->
  Forall (fun y => (item_key it <= item_key y)%Z) items ->
  Forall (fun it' => exists e', logEntry it' = PEntry e' /\ by_date e e')
         items.
Proof.
  intros E R F. rewrite Forall_forall in *. intros it' I.
  destruct (R it' I) as (e' & _ & _ & E' & _).
  exists e'. split; auto. specialize (F it' I).
  unfold item_key, by_date in *. now rewrite E, E' in F.
Qed.

(** One round of the loop, on sources that do not fail: the least entry is
    printed, and what is pending is what was pending without it. *)
Lemma async_round_content srcs proms (q : pq comparator) :
  content_inv srcs proms (pq_items q) ->
  pq_heap item_key q ->
  pq_items q <> [] ->
  exists e evs srcs' proms' q',
    async_round (srcs, proms, q) = (evs, Continue (srcs', proms', q')) /\
    printed evs = [PEntry e] /\
    content_inv srcs' proms' (pq_items q') /\
    pq_heap item_key q' /\
    Permutation (pending srcs proms (pq_items q))
                (e :: pending srcs' proms' (pq_items q')) /\
    (sorted_items srcs proms (pq_items q) ->
     sorted_items srcs' proms' (pq_items q') /\
     Forall (by_date e) (pending srcs' proms' (pq_items q'))).
Proof.
  intros C H Ne.
  destruct (pq_pop_some _ q Ne) as (it & q1 & P & Hp).
  pose proof (content_inv_perm Hp C) as C'.
  destruct (pq_pop_heap _ _ _ _ _ H P) as [H1 Hmin].
  destruct C' as (D' & R' & F').
  destruct (R' it (or_introl eq_refl)) as (e & v & s & E & G & Hs).
  pose proof (conj D' (conj R' F')) as C'.
  assert (Pq : Permutation (pending srcs proms (pq_items q))
                           (pending srcs proms (it :: pq_items q1)))
    by (apply Permutation_flat_map; auto).
  assert (Lst : Forall (fun it' => exists e', logEntry it' = PEntry e' /\
                                              by_date e e') (pq_items q1)).
  { eapply least_is_first; eauto. intros it' I. apply R'. now right. }
  exists e. unfold async_round. rewrite P, G.
  destruct v as [|e']; simpl is_false; cbv iota.
  - destruct (await_step_false C' E G) as (C1 & Pend & Sort).
    do 4 eexists. split; [reflexivity|].
    split; [simpl; now rewrite E|].
    split; [exact C1|]. split; [exact H1|].
    split; [now rewrite Pq, Pend|].
    intros S. pose proof (sorted_items_perm Hp S) as S'.
    split; [auto|]. apply pending_after; auto.
  - destruct (await_step_entry C' E G Hs) as (C1 & Pend & Sort).
    assert (Pk : pop_at (logSourceIndex it) srcs
                 = Some (fst (pop s),
                         update (logSourceIndex it) (snd (pop s)) srcs)).
    { unfold pop_at. rewrite Hs. now destruct (pop s). }
    rewrite Pk.
    set (nxt := mkItem (PEntry e') (logSourceIndex it)) in *.
    pose proof (pq_push_items _ nxt q1) as Hpush.
    do 4 eexists. split; [reflexivity|].
    split; [simpl; now rewrite E|].
    split; [eapply content_inv_perm; [apply Permutation_sym, Hpush|exact C1]|].
    split.
    { apply pq_push_heap; auto. apply keyed_by_entries.
      destruct C1 as (_ & R1 & _). eapply ready_entries; eauto. }
    split.
    { rewrite Pq, Pend. apply perm_skip.
      apply Permutation_flat_map; now apply Permutation_sym. }
    intros S. pose proof (sorted_items_perm Hp S) as S'.
    destruct (Sort S') as [S1 Le].
    split.
    + eapply sorted_items_perm; [apply Permutation_sym, Hpush|exact S1].
    + assert (Pn : Permutation
                     (pending (update (logSourceIndex it) (snd (pop s)) srcs)
                        (JsMap.set (logSourceIndex it) (fst (pop s)) proms)
                        (nxt :: pq_items q1))
                     (pending (update (logSourceIndex it) (snd (pop s)) srcs)
                        (JsMap.set (logSourceIndex it) (fst (pop s)) proms)
                        (pq_items (pq_push nxt q1))))
        by (apply Permutation_flat_map; now apply Permutation_sym).
      eapply Permutation_Forall; [exact Pn|].
      apply pending_after; auto.
      constructor; auto. exists e'. auto.
Qed.

Lemma pending_nil srcs proms (items : list item) :
  (forall it, In it items -> item_ready srcs proms it) ->
  pending srcs proms items = [] -> items = [].
Proof.
  destruct items as [|it items]; auto. intros R H.
  destruct (R it (or_introl eq_refl)) as (e & _ & _ & E & _).
  unfold pending in H. simpl in H. unfold item_pending in H at 1.
  rewrite E in H. discriminate.
Qed.

(** The loop, on sources that do not fail: it ends within as many rounds as
    there are entries pending, and prints them all, least first. *)
Lemma async_loop_content n : forall srcs proms (q : pq comparator) fuel,
    content_inv srcs proms (pq_items q) ->
    pq_heap item_key q ->
    length (pending srcs proms (pq_items q)) = n ->
    n <= fuel ->
    exists tr st out,
      while async_cond async_round fuel (srcs, proms, q)
      = (Completed, tr, st) /\
      printed tr = map PEntry out /\
      Permutation out (pending srcs proms (pq_items q)) /\
      (sorted_items srcs proms (pq_items q) -> StronglySorted by_date out).
Proof.
  induction n as [|n IH]; intros srcs proms q fuel C H L F.
  - apply length_zero_iff_nil in L.
    assert (E : pq_items q = []) by (eapply pending_nil; eauto; apply C).
    exists [], (srcs, proms, q), []. rewrite L. split.
    + apply while_stop. rewrite async_cond_items. simpl. now rewrite E.
    + repeat split; auto. constructor.
  - assert (Ne : pq_items q <> []).
    { intros E. rewrite E in L. discriminate. }
    destruct (async_round_content q C H Ne)
      as (e & evs & srcs' & proms' & q' & R & Pr & C' & H' & Pp & Srt).
    destruct fuel as [|fuel]; [lia|].
    assert (L' : length (pending srcs' proms' (pq_items q')) = n).
    { apply Permutation_length in Pp. simpl in Pp. lia. }
    destruct (IH srcs' proms' q' fuel C' H' L')
      as (tr & st & out & W & Po & Pe & So);
      [lia|].
    exists (evs ++ tr), st, (e :: out).
    split.
    + rewrite while_S, R, W.
      replace (async_cond (srcs, proms, q)) with true; auto.
      rewrite async_cond_items. simpl.
      destruct (pq_items q); [congruence | reflexivity].
    + split; [rewrite printed_app, Pr, Po; reflexivity|].
      split; [rewrite Pp; now apply perm_skip|].
      intros S. destruct (Srt S) as [S' Fe].
      constructor; auto.
      eapply Permutation_Forall; [apply Permutation_sym; exact Pe | exact Fe].
Qed.

End AsyncContent.

(** *** Seeding, on sources that do not fail *)

Section AsyncSeeding.

Context {PQ : PriorityQueue item}.

Lemma seed_inv_others srcs proms les k rest :
  seed_inv srcs proms les (k :: rest) ->
  (forall it, In it les -> k <> logSourceIndex it) /\
  (forall j, In j rest -> k <> j) /\
  NoDup (map logSourceIndex les ++ rest).
Proof.
  intros (D & _). pose proof (NoDup_remove_2 _ _ _ D) as N.
  repeat split.
  - intros it I E. apply N, in_or_app. left. rewrite E. now apply in_map.
  - intros j I E. apply N, in_or_app. right. now subst.
  - eapply NoDup_remove_1; eauto.
Qed.

Lemma async_seed_content todo : forall srcs proms les,
    seed_inv srcs proms les todo ->
    exists tr srcs' proms' les',
      async_seed todo (srcs, proms, les)
      = (Completed, tr, (srcs', proms', les')) /\
      printed tr = [] /\
      content_inv srcs' proms' les' /\
      pending srcs' proms' les'
      = pending srcs proms les ++ flat_map (rest_of srcs proms) todo /\
      (sorted_items srcs proms les ->
       (forall k, In k todo -> StronglySorted by_date (rest_of srcs proms k)) ->
       sorted_items srcs' proms' les').
Proof.
  induction todo as [|k rest IH]; intros srcs proms les I.
  - exists [], srcs, proms, les. simpl.
    destruct I as (D & R & _ & F). rewrite !app_nil_r in *.
    repeat split; auto.
  - destruct (seed_inv_others I) as (O1 & O2 & D').
    destruct I as (D & R & T & F).
    destruct (T k (or_introl eq_refl)) as (v & s & G & Hs).
    rewrite async_seed_cons. unfold async_seed_round. rewrite G.
    destruct v as [|e]; simpl is_false; cbv iota.
    + destruct (IH srcs (JsMap.delete k proms) les)
        as (tr & srcs' & proms' & les' & W & Pr & C & Pe & So).
      { repeat split; auto.
        - intros it Hi. apply item_ready_delete_ne; auto.
        - intros j Hj. rewrite JsMapFacts.get_delete_ne by auto.
          apply T. now right. }
      rewrite W. do 4 eexists. split; [reflexivity|].
      split; [exact Pr|]. split; [exact C|]. split.
      * assert (Rk : rest_of srcs proms k = [])
          by (unfold rest_of; rewrite G, Hs; reflexivity).
        rewrite Pe. cbn [flat_map]. rewrite Rk. cbn [app]. unfold pending.
        f_equal; apply flat_map_agree; intros x Hx.
        -- apply item_pending_delete_ne; auto.
        -- apply rest_of_delete_ne; auto.
      * intros S St. apply So.
        -- intros it Hi. rewrite item_pending_delete_ne by auto. auto.
        -- intros j Hj. rewrite rest_of_delete_ne by auto.
           apply St. now right.
    + assert (Lk : k < length srcs) by (apply nth_error_Some; congruence).
      assert (Pk : pop_at k srcs
                   = Some (fst (pop s), update k (snd (pop s)) srcs)).
      { unfold pop_at. rewrite Hs. now destruct (pop s). }
      rewrite Pk.
      assert (Ns : no_raise s).
      { rewrite Forall_forall in F. apply F. eapply nth_error_In; eauto. }
      destruct (pop_no_raise Ns) as [[v Ev] Ns'].
      set (srcs1 := update k (snd (pop s)) srcs).
      set (proms1 := JsMap.set k (fst (pop s)) proms).
      set (nxt := mkItem (PEntry e) k).
      assert (Pn : item_pending srcs1 proms1 nxt = e :: entries s).
      { unfold item_pending. simpl. unfold srcs1, proms1.
        rewrite rest_of_set_eq by auto. now rewrite entries_pop. }
      destruct (IH srcs1 proms1 (les ++ [nxt]))
        as (tr & srcs' & proms' & les' & W & Pr & C & Pe & So).
      { repeat split.
        - rewrite map_app, <- app_assoc. exact D.
        - intros it Hi. apply in_app_or in Hi as [Hi|[<-|[]]].
          + apply item_ready_set_ne; auto.
          + exists e, v, (snd (pop s)). simpl. unfold srcs1, proms1.
            rewrite JsMapFacts.get_set_eq, nth_error_update_eq by auto.
            rewrite Ev. auto.
        - intros j Hj. unfold srcs1, proms1.
          rewrite JsMapFacts.get_set_ne, nth_error_update_ne by auto.
          apply T. now right.
        - apply Forall_update; auto. }
      rewrite W. do 4 eexists. split; [reflexivity|].
      split; [simpl; exact Pr|]. split; [exact C|]. split.
      * assert (Rk : rest_of srcs proms k = e :: entries s)
          by (unfold rest_of; rewrite G, Hs; reflexivity).
        rewrite Pe. unfold pending. rewrite flat_map_app.
        cbn [flat_map]. rewrite Pn, Rk, app_nil_r, <- app_assoc.
        f_equal; [|f_equal]; apply flat_map_agree; intros x Hx.
        -- apply item_pending_set_ne; auto.
        -- apply rest_of_set_ne; auto.
      * intros S St. apply So.
        -- intros it Hi. apply in_app_or in Hi as [Hi|[<-|[]]].
           ++ unfold srcs1, proms1. rewrite item_pending_set_ne by auto. auto.
           ++ rewrite Pn. specialize (St k (or_introl eq_refl)).
              unfold rest_of in St. now rewrite G, Hs in St.
        -- intros j Hj. unfold srcs1, proms1.
           rewrite rest_of_set_ne by auto. apply St. now right.
Qed.

End AsyncSeeding.

(** *** The whole run, on sources that do not fail *)

Lemma no_raise_source_of l : no_raise (source_of l).
Proof.
  unfold no_raise, source_of. apply Forall_map, Forall_forall.
  intros; discriminate.
Qed.

Lemma printed_popasync l : printed (map EPopAsync l) = [].
Proof. induction l; simpl; auto. Qed.

Lemma flat_map_map {A B C} (f : B -> list C) (g : A -> B) l :
  flat_map f (map g l) = flat_map (fun x => f (g x)) l.
Proof. induction l; simpl; auto. now rewrite IHl. Qed.

Lemma flat_map_seq_nth {A B} (f : A -> list B) (l : list A) :
  flat_map (fun k => match nth_error l k with
                     | Some s => f s
                     | None => []
                     end) (seq 0 (length l))
  = flat_map f l.
Proof.
  induction l as [|x l IH]; simpl; auto.
  rewrite <- seq_shift, flat_map_map. simpl. now rewrite IH.
Qed.

Section AsyncWhole.

Context {PQ : PriorityQueue item}.

Lemma async_reduce_rest_of logSources srcs0 m0 tr0 :
  async_reduce logSources 0 JsMap.empty = (srcs0, m0, tr0) ->
  forall k, rest_of srcs0 m0 k
            = match nth_error logSources k with
              | Some s => entries s
              | None => []
              end.
Proof.
  intros H k.
  destruct (async_reduce_spec _ _ _ _ _ _ H) as (-> & _ & G & _).
  unfold rest_of. rewrite G, nth_error_map. simpl.
  rewrite Nat.sub_0_r.
  destruct (nth_error logSources k) as [s|] eqn:E; simpl.
  - assert (L : k < length logSources) by (apply nth_error_Some; congruence).
    apply Nat.ltb_lt in L. rewrite L. apply entries_pop.
  - now destruct (k <? length logSources).
Qed.

Lemma async_reduce_seed_inv logSources srcs0 m0 tr0 :
  Forall no_raise logSources ->
  async_reduce logSources 0 JsMap.empty = (srcs0, m0, tr0) ->
  seed_inv srcs0 m0 [] (seq 0 (length logSources)).
Proof.
  intros F H.
  destruct (async_reduce_spec _ _ _ _ _ _ H) as (-> & _ & G & _).
  repeat split.
  - apply seq_NoDup.
  - intros it [].
  - intros k Hk. apply in_seq in Hk. simpl in Hk.
    destruct (nth_error logSources k) as [s|] eqn:E;
      [|apply nth_error_None in E; lia].
    assert (Ns : no_raise s).
    { rewrite Forall_forall in F. apply F. eapply nth_error_In; eauto. }
    destruct (pop_no_raise Ns) as [[v Ev] _].
    exists v, (snd (pop s)). rewrite G, nth_error_map, Nat.sub_0_r, E. simpl.
    replace (k <? length logSources) with true
      by (symmetry; apply Nat.ltb_lt; lia).
    now rewrite Ev.
  - apply Forall_map. eapply Forall_impl; [|exact F].
    intros s Ns. apply (pop_no_raise Ns).
Qed.

(** On sources that do not fail, the pipelined engine ends within as many
    rounds as the sources give entries, prints each of these entries once and
    prints them in time order when every source gives its own in time
    order. *)
Lemma async_whole_run fuel logSources :
  Forall no_raise logSources ->
  length (flat_map entries logSources) <= fuel ->
  exists tr m out,
    async_sorted_merge fuel logSources = (Completed, tr, m) /\
    printed tr = map PEntry out /\
    Permutation out (flat_map entries logSources) /\
    (Forall (fun s => StronglySorted by_date (entries s)) logSources ->
     StronglySorted by_date out).
Proof.
  intros F L. unfold async_sorted_merge.
  destruct (async_reduce logSources 0 JsMap.empty) as [[srcs0 m0] tr0] eqn:R.
  pose proof (@async_reduce_seed_inv _ _ _ _ F R) as I0.
  pose proof (@async_reduce_rest_of _ _ _ _ R) as R0.
  destruct (async_reduce_inv _ _ _ _ R) as (_ & _ & K0).
  destruct (async_reduce_spec _ _ _ _ _ _ R) as (_ & T0 & _ & _).
  rewrite K0.
  destruct (async_seed_content I0)
    as (tr1 & srcs1 & m1 & les & W1 & P1 & C1 & Pe1 & So1).
  rewrite W1.
  assert (All : pending srcs1 m1 les = flat_map entries logSources).
  { rewrite Pe1. simpl.
    rewrite (flat_map_ext _ _ R0). apply flat_map_seq_nth. }
  set (q := pq_new comparator les).
  pose proof (pq_new_items comparator les) as Pq.
  assert (Cq : content_inv srcs1 m1 (pq_items q))
    by (eapply content_inv_perm; [apply Permutation_sym|]; eauto).
  assert (Hq : pq_heap item_key q).
  { apply pq_new_heap, keyed_by_entries.
    destruct C1 as (_ & R1 & _). eapply ready_entries; eauto. }
  assert (Pp : Permutation (pending srcs1 m1 (pq_items q))
                           (flat_map entries logSources)).
  { rewrite <- All. apply Permutation_flat_map. exact Pq. }
  destruct (@async_loop_content PQ _ srcs1 m1 q fuel Cq Hq eq_refl)
    as (tr2 & [[srcs2 m2] q2] & out & W2 & P2 & Pe2 & So2).
  { rewrite (Permutation_length Pp). exact L. }
  rewrite W2. exists (tr0 ++ tr1 ++ tr2 ++ [EDone]), m2, out.
  split; [reflexivity|]. split; [|split].
  - rewrite !printed_app, T0, printed_popasync, P1, P2. simpl.
    now rewrite app_nil_r.
  - now rewrite Pe2.
  - intros S. apply So2.
    eapply sorted_items_perm; [apply Permutation_sym; exact Pq|].
    apply So1.
    + intros it [].
    + intros k _. rewrite R0.
      destruct (nth_error logSources k) as [s|] eqn:E; [|constructor].
      rewrite Forall_forall in S. apply S. eapply nth_error_In; eauto.
Qed.

End AsyncWhole.

(** ** The pipelined engine against its contract *)

(** C2, as amended.  For sources whose pulls return an entry or [false],
    the pipelined engine, given at least as many rounds as the sources give
    entries before their first [false], runs to completion, calls
    [printer.done()] once, as its last action, and prints each of these
    entries exactly once; if moreover every source gives its entries in
    non-decreasing time order, the output is in non-decreasing time order. *)
Theorem async_merges_every_entry_in_order :
  forall (PQ : PriorityQueue item) (sources : list (list popped))
         (fuel : nat),
    length (flat_map entries (map source_of sources)) <= fuel ->
    async_outcome (async_sorted_merge fuel (map source_of sources))
    = Completed /\
    (exists body,
        async_trace (async_sorted_merge fuel (map source_of sources))
        = body ++ [EDone] /\ ~ In EDone body) /\
    exists out,
      printed (async_trace (async_sorted_merge fuel (map source_of sources)))
      = map PEntry out /\
      Permutation out (flat_map entries (map source_of sources)) /\
      (Forall (fun s => StronglySorted by_date (entries s))
              (map source_of sources) ->
       StronglySorted by_date out).
Proof.
  intros PQ sources fuel L.
  assert (F : Forall no_raise (map source_of sources)).
  { apply Forall_map, Forall_forall. intros; apply no_raise_source_of. }
  destruct (@async_whole_run PQ fuel _ F L) as (tr & m & out & E & P & Pe & So).
  destruct (async_run_shape PQ fuel (map source_of sources))
    as (body & G & S & _).
  rewrite E in *. unfold async_outcome, async_trace in *. simpl in *.
  split; [reflexivity|]. split.
  - destruct (done_is_last _ _ _ (async_good_no_failure _ _ _ G) S)
      as (D1 & _ & D2).
    exists body. split; auto.
  - exists out. auto.
Qed.

(** Scenario 3: five entries, five rounds, printed as 1, 2, 3, 4, 5. *)
Lemma async_merges_every_entry_in_order_witness :
  length (flat_map entries (map source_of sources3)) <= 5 /\
  async_outcome (async_sorted_merge (PQ := list_queue) 5
                                    (map source_of sources3))
  = Completed /\
  printed (async_trace (async_sorted_merge (PQ := list_queue) 5
                                           (map source_of sources3)))
  = map PEntry [entry_at 1; entry_at 2; entry_at 3; entry_at 4; entry_at 5].
Proof.
  assert (L : length (flat_map entries (map source_of sources3)) <= 5)
    by (simpl; lia).
  split; [exact L|].
  destruct (async_merges_every_entry_in_order list_queue sources3 L)
    as (H & _ & _).
  split; [exact H | reflexivity].
Defined.

(** C2 as stated fails: a source that gives 5 and then 1 is printed as 5,
    1. *)
Lemma async_prints_backwards_source_as_is :
  printed (async_trace (async_sorted_merge (PQ := list_queue) 2 backwards))
  = map PEntry [entry_at 5; entry_at 1] /\
  ~ (exists out,
        printed (async_trace
                   (async_sorted_merge (PQ := list_queue) 2 backwards))
        = map PEntry out /\
        StronglySorted by_date out).
Proof.
  split; [reflexivity|].
  intros (out & E & S).
  change (printed (async_trace (async_sorted_merge (PQ := list_queue) 2
                                                   backwards)))
    with (map PEntry [entry_at 5; entry_at 1]) in E.
  destruct out as [|a [|b [|c out]]]; simpl in E; try discriminate.
  inversion E; subst.
  apply StronglySorted_inv in S as [_ S]. inversion S as [|? ? H _]; subst.
  unfold by_date in H. simpl in H. lia.
Qed.

Lemma sync_on_scenario3 (PQ : PriorityQueue item) fuel :
  sync_sorted_merge fuel scenario3
  = (Completed,
     [EPop 0 (Ret (PEntry (entry_at 1)));
      EPop 1 (Ret (PEntry (entry_at 2)));
      EDone]).
Proof.
  pose proof (sync_loop_empty fuel [[Ret (PEntry (entry_at 3));
                                     Ret (PEntry (entry_at 5))];
                                    [Ret (PEntry (entry_at 4))]]) as W.
  unfold sync_sorted_merge. simpl.
  match type of W with
  | ?lhs = _ =>
      match goal with
      | |- context [while ?c ?b ?f ?s] => change (while c b f s) with lhs
      end
  end.
  rewrite W. reflexivity.
Qed.

(** C3, on scenario 3: for every priority queue, the blocking engine prints
    nothing, and the pipelined engine prints the five entries in time
    order. *)
Theorem engines_differ_on_scenario3 :
  forall (PQ : PriorityQueue item),
    printed (snd (sync_sorted_merge 5 scenario3)) = [] /\
    exists out,
      printed (async_trace (async_sorted_merge 5 scenario3))
      = map PEntry out /\
      Permutation out [entry_at 1; entry_at 3; entry_at 5;
                       entry_at 2; entry_at 4] /\
      StronglySorted by_date out.
Proof.
  intros PQ. split.
  - rewrite sync_on_scenario3. reflexivity.
  - assert (L : length (flat_map entries (map source_of sources3)) <= 5)
      by (simpl; lia).
    assert (F : Forall no_raise (map source_of sources3)).
    { apply Forall_map, Forall_forall. intros; apply no_raise_source_of. }
    destruct (@async_whole_run PQ 5 _ F L) as (tr & m & out & E & P & Pe & So).
    change (map source_of sources3) with scenario3 in *.
    exists out. unfold async_trace. rewrite E. simpl.
    split; [exact P|]. split; [exact Pe|].
    apply So. unfold by_date.
    repeat constructor; simpl; lia.
Qed.

(** ** The ordering structure *)

(** C8, as amended.  The comparator both engines give to the queue is the
    difference of the timestamps of two entries, whatever their source
    indices: negative when the first is earlier, zero when the timestamps
    are equal.  A queue built with it over entries pops an entry of least
    timestamp; which of several entries with the least timestamp comes first
    is left to the queue. *)
Theorem queue_orders_by_timestamp_only :
  forall (PQ : PriorityQueue item),
    (forall ea eb i j,
        comparator (mkItem (PEntry ea) i) (mkItem (PEntry eb) j)
        = Num (date ea - date eb)) /\
    (forall (l : list item) x q',
        Forall (fun it => exists e, logEntry it = PEntry e) l ->
        pq_pop (pq_new comparator l) = Some (x, q') ->
        In x l /\
        Forall (fun y => (item_key x <= item_key y)%Z) (pq_items q')).
Proof.
  intros PQ. split; [reflexivity|].
  intros l x q' F P. split.
  - apply (Permutation_in x (pq_new_items comparator l)).
    apply (Permutation_in x (Permutation_sym (pq_pop_perm P))). now left.
  - eapply pq_pop_heap; [|exact P].
    apply pq_new_heap, keyed_by_entries.
    now apply Forall_forall.
Qed.

(** A queue over the entries at 5 and 3 pops the entry at 3. *)
Lemma queue_orders_by_timestamp_only_witness :
  comparator (mkItem (PEntry (entry_at 3)) 1) (mkItem (PEntry (entry_at 5)) 0)
  = Num (-2) /\
  pq_pop (PriorityQueue := list_queue)
         (pq_new comparator [mkItem (PEntry (entry_at 5)) 0;
                             mkItem (PEntry (entry_at 3)) 1])
  = Some (mkItem (PEntry (entry_at 3)) 1, [mkItem (PEntry (entry_at 5)) 0]) /\
  Forall (fun y => (3 <= item_key y)%Z) [mkItem (PEntry (entry_at 5)) 0].
Proof.
  destruct (queue_orders_by_timestamp_only list_queue) as [H1 H2].
  split; [apply (H1 (entry_at 3) (entry_at 5) 1 0)|].
  split; [reflexivity|].
  refine (proj2 (H2 [mkItem (PEntry (entry_at 5)) 0;
                     mkItem (PEntry (entry_at 3)) 1]
                    (mkItem (PEntry (entry_at 3)) 1)
                    [mkItem (PEntry (entry_at 5)) 0] _ eq_refl)).
  repeat constructor; eexists; reflexivity.
Defined.

(** C8 as stated fails: on equal timestamps the comparator answers 0 for
    either order of the source indices; and with the list queue, the entry
    of source 1 at timestamp 5 is printed before the entry of source 0 at
    timestamp 5. *)
Lemma comparator_ignores_source_index :
  ~ breaks_ties_by_index comparator /\
  comparator (mkItem (PEntry (entry_at 5)) 0) (mkItem (PEntry (entry_at 5)) 1)
  = Num 0 /\
  comparator (mkItem (PEntry (entry_at 5)) 1) (mkItem (PEntry (entry_at 5)) 0)
  = Num 0 /\
  printed (async_trace (async_sorted_merge (PQ := list_queue) 3 tie))
  = [PEntry (mkLogEntry 1 "zero"); PEntry (mkLogEntry 5 "one");
     PEntry (mkLogEntry 5 "zero")].
Proof.
  split; [|repeat split; reflexivity].
  intros H.
  destruct (H (entry_at 5) (entry_at 5) 0 1 eq_refl) as (z & E & L); [lia|].
  inversion E; subst. lia.
Qed.

(** ** The log source of the library *)

Module LogSourceFacts.
Import LogSourceLib.

(** A drained source stays drained and answers [false]. *)
Lemma pop_drained now hours jitter m s :
  drained s = true ->
  fst (pop now hours jitter m s) = PFalse /\
  drained (snd (pop now hours jitter m s)) = true.
Proof.
  intros H. unfold pop. cbn [fst snd drained]. rewrite H.
  now destruct (date (getNextPseudoRandomEntry hours jitter m s) >? now)%Z.
Qed.

(** The source is drained as soon as it has answered [false]. *)
Lemma pop_false_drains now hours jitter m s :
  fst (pop now hours jitter m s) = PFalse ->
  drained (snd (pop now hours jitter m s)) = true.
Proof.
  unfold pop. cbn [fst snd drained].
  destruct (date (getNextPseudoRandomEntry hours jitter m s) >? now)%Z; auto.
  destruct (drained s); auto. discriminate.
Qed.

(** With one fetch in flight at a time, the promise of [popAsync] gives what
    [pop] returns. *)
Lemma popAsync_settles_like_pop now hours jitter m s :
  popAsync_settle (popAsync_call now hours jitter m s)
  = fst (pop now hours jitter m s) /\
  popAsync_call now hours jitter m s = snd (pop now hours jitter m s).
Proof. split; reflexivity. Qed.

(** Once a scripted source has answered [false] it answers nothing else. *)
Lemma script_drained draws : forall s,
    drained s = true -> entries (script draws s) = [] /\
                        Forall (fun r => r = Ret PFalse) (script draws s).
Proof.
  induction draws as [|[[[now hours] jitter] m] draws IH]; intros s H.
  - split; constructor.
  - destruct (pop_drained now hours jitter m s H) as [H1 H2].
    cbn [script]. destruct (pop now hours jitter m s) as [v s'].
    simpl in H1, H2. subst v. destruct (IH s' H2) as [I1 I2].
    split; [reflexivity | constructor; auto].
Qed.

Lemma next_not_before hours jitter m s :
  (0 <= hours)%Z -> (0 <= jitter)%Z ->
  by_date (last s) (getNextPseudoRandomEntry hours jitter m s).
Proof.
  intros Hh Hj. unfold by_date, getNextPseudoRandomEntry. cbn [date]. lia.
Qed.

Lemma pop_last now hours jitter m s :
  last (snd (pop now hours jitter m s))
  = getNextPseudoRandomEntry hours jitter m s.
Proof. reflexivity. Qed.

Lemma pop_entry now hours jitter m s e :
  fst (pop now hours jitter m s) = PEntry e ->
  e = getNextPseudoRandomEntry hours jitter m s.
Proof.
  unfold pop. cbn [fst].
  destruct (if (date (getNextPseudoRandomEntry hours jitter m s) >? now)%Z
            then true else drained s); congruence.
Qed.

(** With draws that do not go back in time, the entries of a source are in
    time order, none before the entry the source started from. *)
Lemma script_in_order draws : forall s,
    Forall (fun d : draw =>
              let '(_, hours, jitter, _) := d in
              (0 <= hours)%Z /\ (0 <= jitter)%Z) draws ->
    Forall (by_date (last s)) (entries (script draws s)) /\
    StronglySorted by_date (entries (script draws s)).
Proof.
  induction draws as [|[[[now hours] jitter] m] draws IH]; intros s F.
  - split; constructor.
  - inversion F as [|? ? Hd F']; subst. destruct Hd as [Hh Hj].
    cbn [script].
    pose proof (pop_last now hours jitter m s) as El.
    pose proof (pop_entry now hours jitter m s) as Ee.
    pose proof (next_not_before m s Hh Hj) as Le.
    destruct (pop now hours jitter m s) as [v s']. cbn [fst snd] in El, Ee.
    destruct (IH s' F') as [I1 I2].
    destruct v as [|e]; [split; constructor|].
    rewrite El, <- (Ee e eq_refl) in *.
    cbn [entries]. split.
    + constructor; auto. eapply Forall_impl; [|exact I1].
      intros x Hx. eapply by_date_trans; eauto.
    + constructor; auto.
Qed.

End LogSourceFacts.

(** X9.  With no source at all, both engines call [printer.done()] at
    once. *)
Lemma no_sources (PQ : PriorityQueue item) fuel :
  sync_sorted_merge fuel [] = (Completed, [EDone]) /\
  async_sorted_merge fuel [] = (Completed, [EDone], JsMap.empty).
Proof.
  split.
  - unfold sync_sorted_merge. simpl sync_reduce. cbv iota beta.
    now rewrite sync_loop_empty.
  - unfold async_sorted_merge. simpl.
    rewrite while_stop; [reflexivity|].
    rewrite async_cond_items. simpl.
    now rewrite (Permutation_length (pq_new_items comparator [])).
Qed.

(** * Further properties of the code *)

(** ** The log source, [src/lib/log-source.js] *)

Module LogSourceMore.
Import LogSourceLib.

Lemma script_cons now hours jitter m draws s :
  script ((now, hours, jitter, m) :: draws) s
  = Ret (fst (pop now hours jitter m s))
        :: script draws (snd (pop now hours jitter m s)).
Proof. reflexivity. Qed.

Lemma pop_entry_in_time now hours jitter m s e :
  fst (pop now hours jitter m s) = PEntry e ->
  (date e <= now)%Z /\ drained (snd (pop now hours jitter m s)) = false.
Proof.
  intros H. pose proof (LogSourceFacts.pop_entry _ _ _ _ _ H) as E.
  unfold pop in *. cbn [fst snd drained] in *.
  destruct (date (getNextPseudoRandomEntry hours jitter m s) >? now)%Z eqn:G;
    [discriminate|].
  split.
  - subst e. rewrite Z.gtb_ltb in G. apply Z.ltb_ge in G. exact G.
  - destruct (drained s); [discriminate | reflexivity].
Qed.

(** X1.  An entry a log source returns is never dated after the clock of the
    pull that returned it. *)
Theorem log_source_entries_not_after_clock :
  forall (draws : list draw) (s : LogSource) (i : nat) (d : draw)
         (e : LogEntry),
    nth_error draws i = Some d ->
    nth_error (script draws s) i = Some (Ret (PEntry e)) ->
    (date e <= clock d)%Z.
Proof.
  induction draws as [|[[[now hours] jitter] m] draws IH];
    intros s i d e Hd He.
  - destruct i; discriminate.
  - rewrite script_cons in He. destruct i as [|i]; simpl in Hd, He.
    + inversion Hd; subst. inversion He as [E].
      apply (pop_entry_in_time _ _ _ _ _ E).
    + eapply IH; eauto.
Qed.

(** One pull at clock 10 from an entry dated 0, five milliseconds on. *)
Lemma log_source_entries_not_after_clock_witness :
  nth_error [mk_draw 10 0 5 "b"] 0
  = Some (mk_draw 10 0 5 "b") /\
  nth_error (script [mk_draw 10 0 5 "b"]
                    (mkLogSource false (mkLogEntry 0 "a")))
            0
  = Some (Ret (PEntry (mkLogEntry 5 "b"))) /\
  (date (mkLogEntry 5 "b") <= clock (mk_draw 10 0 5 "b"))%Z.
Proof.
  split; [reflexivity|]. split; [reflexivity|].
  apply (@log_source_entries_not_after_clock
           [mk_draw 10 0 5 "b"]
           (mkLogSource false (mkLogEntry 0 "a")) 0);
    reflexivity.
Defined.

(** X2.  Exhaustion is permanent: once a log source has answered [false],
    every later pull answers [false]. *)
Theorem log_source_exhaustion_is_permanent :
  forall (draws : list draw) (s : LogSource) (pre post : list settled),
    script draws s = pre ++ Ret PFalse :: post ->
    Forall (fun r => r = Ret PFalse) post.
Proof.
  intros draws s pre. revert draws s.
  induction pre as [|a pre IH]; intros draws s post H;
    destruct draws as [|[[[now hours] jitter] m] draws];
    try discriminate; rewrite script_cons in H;
    pose proof (LogSourceFacts.pop_false_drains now hours jitter m s) as D;
    destruct (pop now hours jitter m s) as [v s'];
    cbn [fst snd app] in *; inversion H; subst.
  - apply (LogSourceFacts.script_drained draws _ (D eq_refl)).
  - eapply IH; eauto.
Qed.

(** A source that drains at its second pull stays drained at the third. *)
Lemma log_source_exhaustion_is_permanent_witness :
  script [mk_draw 10 0 5 "b"; mk_draw 10 0 7 "c"; mk_draw 30 0 1 "d"]
         (mkLogSource false (mkLogEntry 0 "a"))
  = [Ret (PEntry (mkLogEntry 5 "b"))] ++ Ret PFalse :: [Ret PFalse] /\
  Forall (fun r => r = Ret PFalse) [Ret PFalse].
Proof.
  split; [reflexivity|].
  apply (@log_source_exhaustion_is_permanent
           [mk_draw 10 0 5 "b"; mk_draw 10 0 7 "c"; mk_draw 30 0 1 "d"]
           (mkLogSource false (mkLogEntry 0 "a"))
           [Ret (PEntry (mkLogEntry 5 "b"))]).
  reflexivity.
Defined.

Lemma in_range_forward draws :
  Forall in_range draws ->
  Forall (fun d : draw =>
            let '(_, hours, jitter, _) := d in
            (0 <= hours)%Z /\ (0 <= jitter)%Z) draws.
Proof.
  intros F. eapply Forall_impl; [|exact F].
  intros [[[now hours] jitter] m]; simpl. lia.
Qed.

(** X3.  With the draws lodash makes, a log source gives its entries in
    non-decreasing time order, none before the entry it started from. *)
Theorem log_source_entries_in_order :
  forall (draws : list draw) (s : LogSource),
    Forall in_range draws ->
    Forall (by_date (last s)) (entries (script draws s)) /\
    StronglySorted by_date (entries (script draws s)).
Proof.
  intros draws s F.
  apply LogSourceFacts.script_in_order, in_range_forward, F.
Qed.

Lemma log_source_entries_in_order_witness :
  Forall in_range [mk_draw 100 1 5 "b"; mk_draw 100 0 0 "c"] /\
  StronglySorted by_date
    (entries (script [mk_draw 100 1 5 "b"; mk_draw 100 0 0 "c"]
                     (mkLogSource false (mkLogEntry (-4000000) "a")))).
Proof.
  assert (F : Forall in_range [mk_draw 100 1 5 "b"; mk_draw 100 0 0 "c"])
    by (repeat constructor; simpl; lia).
  split; [exact F|].
  apply (log_source_entries_in_order
           (mkLogSource false (mkLogEntry (-4000000) "a")) F).
Defined.

Lemma pop_gives_entry now hours jitter m s :
  drained s = false ->
  (date (getNextPseudoRandomEntry hours jitter m s) <= now)%Z ->
  pop now hours jitter m s
  = (PEntry (getNextPseudoRandomEntry hours jitter m s),
     mkLogSource false (getNextPseudoRandomEntry hours jitter m s)).
Proof.
  intros D L. unfold pop.
  replace (date (getNextPseudoRandomEntry hours jitter m s) >? now)%Z
    with false.
  - now rewrite D.
  - symmetry. rewrite Z.gtb_ltb. now apply Z.ltb_ge.
Qed.

Lemma next_within hours jitter m s :
  in_range (mk_draw 0 hours jitter m) ->
  (date (getNextPseudoRandomEntry hours jitter m s)
   <= date (last s) + 36060000)%Z.
Proof.
  unfold in_range, mk_draw, getNextPseudoRandomEntry. cbn [date]. lia.
Qed.

(** As long as the source is a full step (ten hours and a minute) per pull
    behind the earliest clock, every pull gives an entry. *)
Lemma script_gives_entries draws : forall s bound,
    drained s = false ->
    Forall (fun d => in_range d /\ (bound <= clock d)%Z) draws ->
    (date (last s) + Z.of_nat (length draws) * 36060000 <= bound)%Z ->
    Forall (fun r => exists e, r = Ret (PEntry e)) (script draws s).
Proof.
  induction draws as [|[[[now hours] jitter] m] draws IH];
    intros s bound D F L.
  - constructor.
  - inversion F as [|? ? [R C] F']; subst.
    pose proof (@next_within hours jitter m s R) as W.
    unfold clock in C.
    rewrite script_cons, pop_gives_entry; auto.
    + cbn [fst snd]. constructor; [eauto|].
      apply (IH _ bound); auto. cbn [last].
      cbn [length] in L. lia.
    + cbn [length] in L. lia.
Qed.

(** X4.  A new log source is never empty: built at clock [now0] with the
    40 days or more of the constructor, it gives an entry at each of its
    first 95 pulls, whatever lodash draws, as long as the clock does not go
    back. *)
Theorem new_log_source_gives_95_entries :
  forall (now0 days : Z) (m : string) (draws : list draw),
    (40 <= days)%Z ->
    length draws <= 95 ->
    Forall (fun d => in_range d /\ (now0 <= clock d)%Z) draws ->
    Forall (fun r => exists e, r = Ret (PEntry e))
           (script draws (make now0 days m)).
Proof.
  intros now0 days m draws Hd Hl F.
  apply (@script_gives_entries draws (make now0 days m) now0); auto.
  unfold make. cbn [last date]. lia.
Qed.

Lemma new_log_source_gives_95_entries_witness :
  (40 <= 40)%Z /\
  length [mk_draw 1000 10 60000 "b"; mk_draw 1000 10 60000 "c"] <= 95 /\
  Forall (fun r => exists e, r = Ret (PEntry e))
         (script [mk_draw 1000 10 60000 "b"; mk_draw 1000 10 60000 "c"]
                 (make 1000 40 "a")).
Proof.
  assert (H1 : (40 <= 40)%Z) by lia.
  assert (H2 : length [mk_draw 1000 10 60000 "b";
                       mk_draw 1000 10 60000 "c"] <= 95)
    by (simpl; lia).
  split; [exact H1|]. split; [exact H2|].
  apply (@new_log_source_gives_95_entries 1000 40 "a" _ H1 H2).
  repeat constructor; simpl; lia.
Defined.

(** X5.  A log source need not drain: when lodash draws 0 hours and 0
    jitter at every pull, the source gives an entry with the same date at
    every pull, for ever. *)
Theorem log_source_may_never_drain :
  forall (n : nat) (now : Z) (m : string) (s : LogSource),
    drained s = false ->
    (date (last s) <= now)%Z ->
    script (repeat (mk_draw now 0 0 m) n) s
    = repeat (Ret (PEntry (mkLogEntry (date (last s)) m))) n.
Proof.
  induction n as [|n IH]; intros now m s D L; [reflexivity|].
  assert (E : getNextPseudoRandomEntry 0 0 m s = mkLogEntry (date (last s)) m).
  { unfold getNextPseudoRandomEntry. f_equal. lia. }
  cbn [repeat]. unfold mk_draw at 1.
  rewrite script_cons, pop_gives_entry; auto.
  - cbn [fst snd]. rewrite E. f_equal.
    rewrite IH; auto.
  - rewrite E. exact L.
Qed.

Lemma log_source_may_never_drain_witness :
  drained (make 1000 40 "a") = false /\
  (date (last (make 1000 40 "a")) <= 1000)%Z /\
  script (repeat (mk_draw 1000 0 0 "b") 3) (make 1000 40 "a")
  = repeat (Ret (PEntry (mkLogEntry (date (last (make 1000 40 "a"))) "b"))) 3.
Proof.
  assert (H1 : drained (make 1000 40 "a") = false) by reflexivity.
  assert (H2 : (date (last (make 1000 40 "a")) <= 1000)%Z)
    by (simpl; lia).
  split; [exact H1|]. split; [exact H2|].
  apply (@log_source_may_never_drain 3 1000 "b" _ H1 H2).
Defined.

Lemma script_app a : forall b s,
    script (a ++ b) s = script a s ++ script b (popAsync_calls a s).
Proof.
  induction a as [|[[[now hours] jitter] m] a IH]; intros b s;
    [reflexivity|].
  cbn [app]. rewrite !script_cons, IH. reflexivity.
Qed.

(** X6.  The promise of [popAsync] answers from the source as it is when
    the promise settles: after several calls with no promise settled in
    between, each of their promises gives what the last call's pull gives.
    With one call in flight, that is what [pop] returns. *)
Theorem popAsync_answers_for_the_last_call :
  forall (draws : list draw) (d : draw) (s : LogSource),
    List.last (script (draws ++ [d]) s) (Ret PFalse)
    = Ret (popAsync_settle (popAsync_calls (draws ++ [d]) s)).
Proof.
  intros draws [[[now hours] jitter] m] s.
  rewrite script_app, script_cons. cbn [script]. rewrite List.last_last.
  unfold popAsync_calls. rewrite fold_left_app. reflexivity.
Qed.

End LogSourceMore.

Unset Implicit Arguments.

(** ** The pipelined engine, [async-sorted-merge.js] *)

Section AsyncMore.

Context {PQ : PriorityQueue item}.

Lemma not_false_entry v : is_false v = false -> exists e, v = PEntry e.
Proof. destruct v; simpl; [discriminate | eauto]. Qed.

Lemma async_seed_round_only_entries k srcs proms les evs r :
  Forall entry_item les ->
  async_seed_round k (srcs, proms, les) = (evs, r) ->
  Forall only_entries evs /\
  match r with
  | Continue (_, _, les') => Forall entry_item les'
  | Break _ => True
  end.
Proof.
  intros F H. unfold async_seed_round in H.
  destruct (JsMap.get k proms) as [[v|]|].
  - destruct (is_false v) eqn:Ev.
    + inversion H; subst. split; auto. repeat constructor.
    + apply not_false_entry in Ev as [e ->].
      destruct (pop_at k srcs) as [[p srcs']|]; inversion H; subst.
      * split; [repeat constructor; eexists; reflexivity|].
        apply Forall_app; split; auto.
        repeat constructor. eexists; reflexivity.
      * split; auto. repeat constructor. eexists; reflexivity.
  - inversion H; subst. split; auto. repeat constructor.
  - inversion H; subst. split; auto.
Qed.

Lemma async_seed_only_entries todo : forall srcs proms les o tr st,
    Forall entry_item les ->
    async_seed todo (srcs, proms, les) = (o, tr, st) ->
    Forall only_entries tr /\ Forall entry_item (snd st).
Proof.
  induction todo as [|k todo IH]; intros srcs proms les o tr st F H.
  - simpl in H. inversion H; subst. split; auto.
  - rewrite async_seed_cons in H.
    destruct (async_seed_round k (srcs, proms, les)) as [evs r] eqn:R.
    destruct (async_seed_round_only_entries k srcs proms les evs r F R)
      as [G C].
    destruct r as [[[srcs1 proms1] les1]|o1].
    + destruct (async_seed todo (srcs1, proms1, les1)) as [[o2 tr2] st2] eqn:S.
      inversion H; subst.
      destruct (IH _ _ _ _ _ _ C S) as [G2 C2].
      split; auto. apply Forall_app; auto.
    + inversion H; subst. split; auto.
Qed.

Lemma async_round_only_entries (st : async_state) evs r :
  Forall entry_item (pq_items (snd st)) ->
  async_round st = (evs, r) ->
  Forall only_entries evs /\
  match r with
  | Continue st' => Forall entry_item (pq_items (snd st'))
  | Break _ => True
  end.
Proof.
  destruct st as [[srcs proms] q]. cbn [snd]. intros F H.
  unfold async_round in H.
  destruct (pq_pop q) as [[it q1]|] eqn:P;
    [|inversion H; subst; split; auto].
  assert (Fp : Forall entry_item (it :: pq_items q1))
    by (eapply Permutation_Forall; [apply (pq_pop_perm P) | exact F]).
  inversion Fp as [|? ? [e E] Fq1]; subst. rewrite E in H.
  destruct (JsMap.get (logSourceIndex it) proms) as [[v|]|].
  - destruct (is_false v) eqn:Ev.
    + inversion H; subst. split; auto.
      repeat constructor. eexists; reflexivity.
    + apply not_false_entry in Ev as [e' ->].
      destruct (pop_at (logSourceIndex it) srcs) as [[p srcs']|];
        inversion H; subst.
      * split; [repeat constructor; eexists; reflexivity|].
        cbn [snd].
        eapply Permutation_Forall; [apply Permutation_sym, pq_push_items|].
        constructor; auto. eexists; reflexivity.
      * split; auto. repeat constructor; eexists; reflexivity.
  - inversion H; subst. split; auto.
    repeat constructor. eexists; reflexivity.
  - inversion H; subst. split; auto.
    repeat constructor. eexists; reflexivity.
Qed.

Lemma async_only_entries fuel logSources :
  Forall only_entries (async_trace (async_sorted_merge fuel logSources)).
Proof.
  unfold async_sorted_merge.
  destruct (async_reduce logSources 0 JsMap.empty) as [[srcs0 m0] tr0] eqn:R.
  destruct (async_reduce_spec _ _ _ _ _ _ R) as (_ & T0 & _ & _).
  assert (G0 : Forall only_entries tr0).
  { subst tr0. apply Forall_map, Forall_forall. intros; exact I. }
  destruct (async_seed (JsMap.keys m0) (srcs0, m0, []))
    as [[o1 tr1] [[srcs1 m1] les]] eqn:S.
  destruct (async_seed_only_entries _ _ _ _ _ _ _ (Forall_nil _) S)
    as [G1 C1].
  cbn [snd] in C1.
  assert (G01 : Forall only_entries (tr0 ++ tr1)) by (apply Forall_app; auto).
  destruct o1; try exact G01.
  destruct (while async_cond async_round fuel
                  (srcs1, m1, pq_new comparator les))
    as [[o2 tr2] [[srcs2 m2] q2]] eqn:W.
  apply (while_inv async_cond async_round
           (fun _ (st : async_state) =>
              Forall entry_item (pq_items (snd st)))
           (fun _ evs => Forall only_entries evs)
           (fun _ _ => True)) with (h := []) in W.
  - destruct W as [G2 _].
    assert (G : Forall only_entries (tr0 ++ tr1 ++ tr2))
      by (rewrite app_assoc; apply Forall_app; auto).
    destruct o2; unfold async_trace; cbn [fst snd]; auto.
    rewrite !app_assoc. apply Forall_app; split.
    + now rewrite <- app_assoc.
    + repeat constructor.
  - constructor.
  - intros; apply Forall_app; auto.
  - auto.
  - intros h s evs r Hi _ Hb. eapply async_round_only_entries; eauto.
  - cbn [snd]. eapply Permutation_Forall;
      [apply Permutation_sym, pq_new_items | exact C1].
Qed.

End AsyncMore.

(** X12.  The pipelined engine never hands [false] to the queue or to the
    sink: every item it puts into [logEntries] or pushes on
    [logEntryQueue], and every value it passes to [printer.print], is a log
    entry, whatever the sources do and however the run ends. *)
Theorem async_queue_and_sink_see_only_entries :
  forall (PQ : PriorityQueue item) (fuel : nat) (logSources : list Source),
    Forall only_entries (async_trace (async_sorted_merge fuel logSources)).
Proof. intros. apply async_only_entries. Qed.

Section AsyncFinal.

Context {PQ : PriorityQueue item}.

Lemma async_trace_begins fuel logSources :
  exists rest,
    async_trace (async_sorted_merge fuel logSources)
    = map EPopAsync (seq 0 (length logSources)) ++ rest.
Proof.
  unfold async_sorted_merge.
  destruct (async_reduce logSources 0 JsMap.empty) as [[srcs0 m0] tr0] eqn:R.
  destruct (async_reduce_spec _ _ _ _ _ _ R) as (_ & T0 & _ & _).
  simpl in T0. subst tr0.
  destruct (async_seed (JsMap.keys m0) (srcs0, m0, []))
    as [[o1 tr1] [[srcs1 m1] les]].
  destruct (while async_cond async_round fuel
                  (srcs1, m1, pq_new comparator les))
    as [[o2 tr2] [[srcs2 m2] q2]].
  destruct o1; try (exists tr1; reflexivity).
  destruct o2; unfold async_trace; cbn [fst snd]; eexists; reflexivity.
Qed.

Lemma async_run_final fuel logSources tr m :
  async_sorted_merge fuel logSources = (Completed, tr, m) ->
  forall i,
    calls_minus_awaits i tr = 0%Z /\
    (i < length logSources -> exhausted i tr = true).
Proof.
  unfold async_sorted_merge.
  destruct (async_reduce logSources 0 JsMap.empty) as [[srcs0 m0] tr0] eqn:R.
  destruct (async_reduce_inv _ _ _ _ R) as (I0 & _ & K0).
  set (N := length logSources) in *.
  destruct (async_seed (JsMap.keys m0) (srcs0, m0, []))
    as [[o1 tr1] [[srcs1 m1] les]] eqn:S.
  rewrite K0 in S.
  destruct (async_seed_ok N (seq 0 N) tr0 srcs0 m0 [] _ _ _ _ _ I0 S)
    as [_ C1].
  destruct C1 as [[-> I1] | [-> _]]; [|discriminate].
  destruct (while async_cond async_round fuel
                  (srcs1, m1, pq_new comparator les))
    as [[o2 tr2] [[srcs2 m2] q2]] eqn:W.
  assert (I2 : async_inv N (tr0 ++ tr1) srcs1 m1
                 (map logSourceIndex (pq_items (pq_new comparator les)))).
  { eapply async_inv_perm; [|exact I1].
    apply Permutation_sym, (Permutation_map logSourceIndex).
    apply pq_new_items. }
  apply (while_inv async_cond async_round
           (fun h (st : async_state) =>
              let '(srcs, proms, q) := st in
              async_inv N h srcs proms (map logSourceIndex (pq_items q)))
           (async_good N)
           (fun o evs => o = Aborted /\ ends_in_failure evs))
    with (h := tr0 ++ tr1) in W; auto.
  - destruct W as [_ [(-> & I' & C) | [(-> & _) | [-> _]]]];
      intros H; inversion H; subst; clear H.
    rewrite async_cond_items in C. cbn [snd] in C.
    apply negb_false_iff, Nat.eqb_eq, length_zero_iff_nil in C.
    rewrite C in I'. cbn [map] in I'.
    destruct I' as (_ & _ & _ & Sl). intros i.
    replace (tr0 ++ tr1 ++ tr2 ++ [EDone])
      with (((tr0 ++ tr1) ++ tr2) ++ [EDone])
      by (now rewrite <- !app_assoc).
    rewrite calls_minus_awaits_app, exhausted_app.
    cbn [calls_minus_awaits exhausted].
    rewrite Z.add_0_r, orb_false_r.
    destruct (Sl i) as [([] & _) | (_ & _ & O & E)]. auto.
  - apply async_good_nil.
  - apply async_good_app.
  - intros o0 a b [? ?]. split; auto. now apply ends_in_failure_app.
  - intros h0 [[srcs' proms'] q'] evs r Ih Ch Rh.
    exact (async_round_ok N _ _ _ _ _ _ Ih Ch Rh).
Qed.

End AsyncFinal.

(** X13.  The pipelined engine starts with one [popAsync] on every source,
    in list order, before it awaits anything: all first fetches are in
    flight together. *)
Theorem async_starts_all_fetches_first :
  forall (PQ : PriorityQueue item) (fuel : nat) (logSources : list Source),
  exists rest,
    async_trace (async_sorted_merge fuel logSources)
    = map EPopAsync (seq 0 (length logSources)) ++ rest.
Proof. intros. apply async_trace_begins. Qed.

(** X14.  When the pipelined engine calls [printer.done()], every source has
    answered [false] to it and every fetch it started has been awaited: on
    each source there are as many awaits as fetches, and the awaits gave,
    one by one and in order, what each of these fetches took from the
    source. *)
Theorem async_done_means_all_sources_drained :
  forall (PQ : PriorityQueue item) (fuel : nat) (logSources : list Source)
         (i : nat),
    async_outcome (async_sorted_merge fuel logSources) = Completed ->
    i < length logSources ->
    exhausted i (async_trace (async_sorted_merge fuel logSources)) = true /\
    fetches i (async_trace (async_sorted_merge fuel logSources))
    = length (awaited i (async_trace (async_sorted_merge fuel logSources))) /\
    awaited i (async_trace (async_sorted_merge fuel logSources))
    = map (answer (nth i logSources []))
          (seq 0 (fetches i (async_trace
                               (async_sorted_merge fuel logSources)))).
Proof.
  intros PQ fuel logSources i H Hi.
  destruct (@async_run_tied PQ logSources fuel) as [T _].
  pose proof (latest_in_turn _ _ T i) as A. unfold awaited_in_turn in A.
  destruct (async_sorted_merge fuel logSources) as [[o tr] m] eqn:E.
  unfold async_outcome, async_trace in *. cbn [fst snd] in *. subst o.
  destruct (async_run_final _ _ _ _ E i) as [O X].
  rewrite calls_minus_awaits_count in O.
  assert (F : fetches i tr = length (awaited i tr)) by lia.
  split; [auto|]. split; [exact F|]. rewrite F. exact A.
Qed.

(** Scenario 3, source 1: three fetches, and the awaits gave 2, 4 and
    [false]. *)
Lemma async_done_means_all_sources_drained_witness :
  async_outcome (async_sorted_merge (PQ := list_queue) 5 scenario3)
  = Completed /\
  1 < length scenario3 /\
  fetches 1 (async_trace (async_sorted_merge (PQ := list_queue) 5 scenario3))
  = 3 /\
  awaited 1 (async_trace (async_sorted_merge (PQ := list_queue) 5 scenario3))
  = [Ret (PEntry (entry_at 2)); Ret (PEntry (entry_at 4)); Ret PFalse].
Proof.
  assert (H1 : async_outcome (async_sorted_merge (PQ := list_queue) 5
                                                 scenario3) = Completed)
    by reflexivity.
  assert (H2 : 1 < length scenario3) by (simpl; lia).
  split; [exact H1|]. split; [exact H2|]. split; [reflexivity|].
  exact (proj2 (proj2 (async_done_means_all_sources_drained
                         list_queue 5 scenario3 1 H1 H2))).
Defined.

(** In scenario 3, the last await on source 1 comes before it has answered
    [false]. *)
Lemma async_exhaustion_is_final_witness :
  let tr := async_trace (async_sorted_merge (PQ := list_queue) 5 scenario3) in
  tr = firstn 21 tr ++ EAwait 1 (Ret PFalse) :: skipn 22 tr /\
  pulls 1 (EAwait 1 (Ret PFalse)) = true /\
  exhausted 1 (firstn 21 tr) = false.
Proof.
  split; [reflexivity|]. split; [reflexivity|].
  apply (async_exhaustion_is_final list_queue 5 scenario3
           (firstn 21 (async_trace (async_sorted_merge
                                      (PQ := list_queue) 5 scenario3)))
           (EAwait 1 (Ret PFalse))
           (skipn 22 (async_trace (async_sorted_merge
                                     (PQ := list_queue) 5 scenario3)))
           1);
    reflexivity.
Defined.

(** ** The blocking engine, [sync-sorted-merge.js] *)

Section SyncMore.

Context {PQ : PriorityQueue item}.

Lemma sync_reduce_entries todo : forall index les,
    Forall starts_with_entry todo ->
    sync_reduce todo index les
    = (Some (map (fun s => snd (pop s)) todo, les), first_pops index todo).
Proof.
  induction todo as [|s todo IH]; intros index les F.
  - reflexivity.
  - inversion F as [|? ? (e & rest & ->) F']; subst.
    cbn [sync_reduce pop is_false first_pops map fst snd].
    rewrite (IH (S index) les F'). reflexivity.
Qed.

Lemma all_false_pop s :
  all_false s -> pop s = (Ret PFalse, snd (pop s)) /\ all_false (snd (pop s)).
Proof.
  intros H. destruct s as [|r s]; simpl.
  - split; [reflexivity | constructor].
  - inversion H; subst. auto.
Qed.

Lemma entry_not_all_false s : starts_with_entry s -> ~ all_false s.
Proof. intros (e & rest & ->) H. inversion H; discriminate. Qed.

(** The [reduce] on sources that stay drained: the drained sources, and only
    they, get an item. *)
Lemma sync_reduce_stays_drained todo : forall index les,
    Forall stays_drained todo ->
    exists extra tr,
      sync_reduce todo index les
      = (Some (map (fun s => snd (pop s)) todo, les ++ extra), tr) /\
      ~ In EDone tr /\
      Forall (fun it =>
                logEntry it = PFalse /\ index <= logSourceIndex it /\
                exists s, nth_error todo (logSourceIndex it - index) = Some s
                          /\ all_false s) extra /\
      (Exists all_false todo -> extra <> []).
Proof.
  induction todo as [|s todo IH]; intros index les F.
  - exists [], []. rewrite app_nil_r. repeat split; auto.
    intros H; inversion H.
  - inversion F as [|? ? Hs F']; subst. destruct Hs as [Hs | Hs].
    + destruct (IH (S index) les F') as (extra & tr & E & D & I & X).
      pose proof (entry_not_all_false _ Hs) as Ns.
      destruct Hs as (e & rest & ->).
      exists extra, (EPop index (Ret (PEntry e)) :: tr).
      cbn [sync_reduce pop is_false map fst snd]. rewrite E.
      split; [reflexivity|]. split; [|split].
      * intros [H | H]; [discriminate | auto].
      * eapply Forall_impl; [|exact I].
        intros it (A & B & s & C1 & C2). split; [auto|]. split; [lia|].
        exists s. split; [|auto].
        replace (logSourceIndex it - index)
          with (S (logSourceIndex it - S index)) by lia.
        exact C1.
      * intros H. inversion H; subst; [contradiction | auto].
    + destruct (all_false_pop _ Hs) as [Ps As].
      destruct (IH (S index) (les ++ [mkItem PFalse index]) F')
        as (extra & tr & E & D & I & X).
      exists (mkItem PFalse index :: extra),
        (EPop index (Ret PFalse) :: EInsert (mkItem PFalse index) :: tr).
      cbn [sync_reduce]. rewrite Ps. cbn [is_false]. rewrite E.
      rewrite <- app_assoc. cbn [app option_map map fst snd].
      split; [reflexivity|]. split; [|split].
      * intros [H | [H | H]]; try discriminate; auto.
      * constructor.
        -- cbn [logEntry logSourceIndex]. split; [auto|]. split; [lia|].
           exists s. rewrite Nat.sub_diag. auto.
        -- eapply Forall_impl; [|exact I].
           intros it (A & B & s' & C1 & C2). split; [auto|]. split; [lia|].
           exists s'. split; [|auto].
           replace (logSourceIndex it - index)
             with (S (logSourceIndex it - S index)) by lia.
           exact C1.
      * intros _; discriminate.
Qed.

(** A round on a queue of items of drained sources: the item popped is
    replaced by another one of the same source. *)
Lemma sync_round_stays_drained (st : sync_state) evs r :
  pq_items (snd st) <> [] /\ Forall (drained_at (fst st)) (pq_items (snd st)) ->
  sync_cond st = true ->
  sync_round st = (evs, r) ->
  ~ In EDone evs /\
  match r with
  | Continue st' =>
      pq_items (snd st') <> [] /\
      Forall (drained_at (fst st')) (pq_items (snd st'))
  | Break _ => False
  end.
Proof.
  destruct st as [srcs q]. cbn [fst snd]. intros [_ F] C H.
  unfold sync_cond in C. cbn [snd] in C. apply negb_true_iff in C.
  destruct (pq_pop_nonempty C) as (it & q1 & P & Hp).
  assert (F' : Forall (drained_at srcs) (it :: pq_items q1))
    by (eapply Permutation_Forall; eauto).
  inversion F' as [|? ? (Ei & s & Ns & As) Fq]; subst.
  destruct (all_false_pop _ As) as [Ps As'].
  unfold sync_round in H. rewrite P in H.
  unfold pop_at in H. rewrite Ns, Ps in H. cbn [is_false] in H.
  inversion H; subst; clear H.
  assert (L : logSourceIndex it < length srcs)
    by (apply nth_error_Some; congruence).
  set (k := logSourceIndex it) in *.
  assert (U : forall x, drained_at srcs x ->
                        drained_at (update k (snd (pop s)) srcs) x).
  { intros x (Ex & sx & Nx & Ax). split; [auto|].
    destruct (Nat.eq_dec k (logSourceIndex x)) as [Ek | Ek].
    - exists (snd (pop s)). rewrite <- Ek.
      split; [now apply nth_error_update_eq | auto].
    - exists sx. split; [|auto]. now rewrite nth_error_update_ne. }
  split.
  - intros [D | [D | [D | []]]]; discriminate.
  - cbn [fst snd].
    pose proof (pq_push_items comparator (mkItem PFalse k) q1) as Pp.
    split.
    + intros E. rewrite E in Pp. apply Permutation_nil in Pp. discriminate.
    + eapply Permutation_Forall; [apply Permutation_sym; exact Pp|].
      constructor.
      * split; [reflexivity|]. cbn [logSourceIndex].
        exists (snd (pop s)). split; [now apply nth_error_update_eq | auto].
      * eapply Forall_impl; [|exact Fq]. exact U.
Qed.

Lemma sync_run_stays_drained fuel logSources :
  Forall stays_drained logSources ->
  Exists all_false logSources ->
  fst (sync_sorted_merge fuel logSources) = OutOfFuel /\
  ~ In EDone (snd (sync_sorted_merge fuel logSources)).
Proof.
  intros F X. unfold sync_sorted_merge.
  destruct (sync_reduce_stays_drained logSources 0 [] F)
    as (extra & tr & E & D & I & Ne).
  rewrite E. cbn [app].
  destruct (while sync_cond sync_round fuel
                  (map (fun s => snd (pop s)) logSources,
                   pq_new comparator extra))
    as [[o tr'] st'] eqn:W.
  apply (while_inv sync_cond sync_round
           (fun (_ : list event) (st : sync_state) =>
              pq_items (snd st) <> [] /\
              Forall (drained_at (fst st)) (pq_items (snd st)))
           (fun (_ : list event) evs => ~ In EDone evs)
           (fun (_ : outcome) (_ : list event) => False))
    with (h := @nil event) in W.
  - destruct W as [G [(-> & [N _] & C) | [(-> & _) | []]]].
    + rewrite sync_cond_items in C.
      apply negb_false_iff, Nat.eqb_eq, length_zero_iff_nil in C.
      contradiction.
    + cbn [fst snd]. split; [reflexivity|].
      intros H. apply in_app_or in H. tauto.
  - intros h; simpl; tauto.
  - intros h a b Ha Hb H. apply in_app_or in H. tauto.
  - intros o0 a b [].
  - intros h st evs r Ih Ch Rh.
    exact (sync_round_stays_drained st evs r Ih Ch Rh).
  - cbn [fst snd].
    pose proof (pq_new_items comparator extra) as Pn. split.
    + intros E0. rewrite E0 in Pn. apply Permutation_nil in Pn.
      apply Ne; auto.
    + eapply Permutation_Forall; [apply Permutation_sym; exact Pn|].
      eapply Forall_impl; [|exact I].
      intros it (A & _ & s & C1 & C2). split; [auto|].
      rewrite Nat.sub_0_r in C1.
      exists (snd (pop s)). split; [|now apply all_false_pop].
      rewrite nth_error_map, C1. reflexivity.
Qed.

End SyncMore.

(** X10.  When the first [pop] of every source answers an entry, the
    blocking engine pops every source once, in list order, puts nothing in
    the queue, prints nothing and calls [printer.done()]: the run is these
    pops and [done], whatever else the sources hold. *)
Theorem sync_pops_each_source_once :
  forall (PQ : PriorityQueue item) (fuel : nat) (logSources : list Source),
    Forall starts_with_entry logSources ->
    sync_sorted_merge fuel logSources
    = (Completed, first_pops 0 logSources ++ [EDone]).
Proof.
  intros PQ fuel logSources F. unfold sync_sorted_merge.
  rewrite (sync_reduce_entries logSources 0 [] F).
  rewrite sync_loop_empty. reflexivity.
Qed.

(** Two sources, the first with two entries. *)
Lemma sync_pops_each_source_once_witness :
  sync_sorted_merge (PQ := list_queue) 0 [source_at [1; 3]; source_at [2]]%Z
  = (Completed,
     [EPop 0 (Ret (PEntry (entry_at 1))); EPop 1 (Ret (PEntry (entry_at 2)));
      EDone]).
Proof.
  apply (sync_pops_each_source_once list_queue 0
           [source_at [1; 3]; source_at [2]]%Z).
  constructor;
    [exists (entry_at 1), [Ret (PEntry (entry_at 3))]; reflexivity|].
  constructor; [exists (entry_at 2), []; reflexivity | constructor].
Defined.

(** X11.  With sources that stay drained once they are, as a [LogSource]
    does, one source that is drained at its first [pop] keeps the loop of
    the blocking engine running for ever: whatever the number of rounds, the
    run has not ended and [printer.done()] has not been called. *)
Theorem sync_never_completes_with_a_drained_source :
  forall (PQ : PriorityQueue item) (fuel : nat) (logSources : list Source),
    Forall stays_drained logSources ->
    Exists all_false logSources ->
    fst (sync_sorted_merge fuel logSources) = OutOfFuel /\
    ~ In EDone (snd (sync_sorted_merge fuel logSources)).
Proof. intros. now apply sync_run_stays_drained. Qed.

(** A source with an entry and a drained source. *)
Lemma sync_never_completes_with_a_drained_source_witness :
  fst (sync_sorted_merge (PQ := list_queue) 7 [source_at [1%Z]; source_of []])
  = OutOfFuel /\
  ~ In EDone
    (snd (sync_sorted_merge (PQ := list_queue) 7
                            [source_at [1%Z]; source_of []])).
Proof.
  apply (sync_never_completes_with_a_drained_source list_queue 7
           [source_at [1%Z]; source_of []]).
  - constructor; [left; exists (entry_at 1), []; reflexivity|].
    constructor; [right; constructor | constructor].
  - apply Exists_cons_tl, Exists_cons_hd. constructor.
Defined.

(** X16.  In the blocking engine the comparator never answers a number on
    two items that were put in the queue: both carry [false], whose [date]
    is [undefined], and the difference is [NaN]. *)
Theorem sync_comparator_answers_nan :
  forall (PQ : PriorityQueue item) (fuel : nat) (logSources : list Source)
         (a b : item),
    In (EInsert a) (snd (sync_sorted_merge fuel logSources)) ->
    In (EInsert b) (snd (sync_sorted_merge fuel logSources)) ->
    comparator a b = NaN.
Proof.
  intros PQ fuel logSources a b Ha Hb.
  destruct (sync_sorted_merge fuel logSources) as [o tr] eqn:E.
  cbn [snd] in *.
  pose proof (sync_only_false _ _ _ _ E) as F.
  rewrite Forall_forall in F.
  pose proof (F _ Ha) as Fa. pose proof (F _ Hb) as Fb.
  unfold only_false, false_item in Fa, Fb.
  unfold comparator. now rewrite Fa, Fb.
Qed.

(** Two drained sources. *)
Lemma sync_comparator_answers_nan_witness :
  comparator (drained_item 0) (drained_item 1) = NaN.
Proof.
  apply (sync_comparator_answers_nan list_queue 1
           [source_of []; source_of []]);
    simpl; auto.
Defined.

(** ** The pipelined engine on the library's sources *)

Section AsyncOnLogSources.

Import LogSourceLib.

Lemma script_no_raise draws : forall s, no_raise (script draws s).
Proof.
  induction draws as [|[[[now hours] jitter] m] draws IH]; intros s.
  - constructor.
  - rewrite LogSourceMore.script_cons. constructor; [discriminate | apply IH].
Qed.

End AsyncOnLogSources.

(** X15.  The pipelined engine on sources of [log-source.js]: when each
    source is pulled until it is drained, with the hours and the jitter that
    [_.random] can give, the engine ends within as many rounds as there are
    entries, prints every entry once and prints them in time order. *)
Theorem async_merges_log_sources_in_order :
  forall (PQ : PriorityQueue item) (fuel : nat)
         (specs : list (list LogSourceLib.draw * LogSourceLib.LogSource)),
    let logSources :=
      map (fun p => LogSourceLib.script (fst p) (snd p)) specs in
    Forall (fun p =>
              Forall LogSourceLib.in_range (fst p) /\
              LogSourceLib.drained
                (LogSourceLib.popAsync_calls (fst p) (snd p)) = true) specs ->
    length (flat_map entries logSources) <= fuel ->
    exists out,
      async_outcome (async_sorted_merge fuel logSources) = Completed /\
      printed (async_trace (async_sorted_merge fuel logSources))
      = map PEntry out /\
      Permutation out (flat_map entries logSources) /\
      StronglySorted by_date out.
Proof.
  intros PQ fuel specs logSources F L.
  assert (N : Forall no_raise logSources).
  { apply Forall_map, Forall_forall. intros p _. apply script_no_raise. }
  destruct (@async_whole_run PQ fuel logSources N L)
    as (tr & m & out & E & P & Pe & So).
  exists out. unfold async_outcome, async_trace. rewrite E. cbn [fst snd].
  split; [reflexivity|]. split; [exact P|]. split; [exact Pe|].
  apply So. apply Forall_map. eapply Forall_impl; [|exact F].
  intros [draws s] [R _]. cbn [fst snd].
  apply LogSourceFacts.script_in_order.
  eapply Forall_impl; [|exact R].
  intros [[[now hours] jitter] m0] [Hh Hj]. lia.
Qed.

(** Two sources read at clock 10: one gives entries at 5 and 9 and is then
    drained, the other gives an entry at 7. *)
Lemma async_merges_log_sources_in_order_witness :
  exists out,
    printed (async_trace
               (async_sorted_merge (PQ := list_queue) 3
                  (map (fun p => LogSourceLib.script (fst p) (snd p))
                     [([LogSourceLib.mk_draw 10 0 5 "b";
                        LogSourceLib.mk_draw 10 0 4 "c";
                        LogSourceLib.mk_draw 10 0 2 "d"],
                       LogSourceLib.mkLogSource false (mkLogEntry 0 "a"));
                      ([LogSourceLib.mk_draw 10 0 7 "y";
                        LogSourceLib.mk_draw 10 0 7 "z"],
                       LogSourceLib.mkLogSource false (mkLogEntry 0 "x"))])))
    = map PEntry out /\
    StronglySorted by_date out.
Proof.
  destruct (async_merges_log_sources_in_order list_queue 3
              [([LogSourceLib.mk_draw 10 0 5 "b";
                 LogSourceLib.mk_draw 10 0 4 "c";
                 LogSourceLib.mk_draw 10 0 2 "d"],
                LogSourceLib.mkLogSource false (mkLogEntry 0 "a"));
               ([LogSourceLib.mk_draw 10 0 7 "y";
                 LogSourceLib.mk_draw 10 0 7 "z"],
                LogSourceLib.mkLogSource false (mkLogEntry 0 "x"))])
    as (out & _ & P & _ & S).
  - repeat constructor; simpl; lia.
  - vm_compute. lia.
  - exists out. split; [exact P | exact S].
Defined.

(** ** Both engines: the sources that are called *)


Section EnginesCalls.

Context {PQ : PriorityQueue item}.

Variable N : nat.








End EnginesCalls.

